(** * Conway's Game of Life on a sparse unbounded grid

    A shallow embedding of the simulation core of [App.tsx] (world model,
    point query, neighbourhood, tick) and of its pattern construction
    helpers (translate, mirror, rotate, compose), followed by the
    properties proved about them.

    Conventions of the embedding:
    - a JavaScript [number] holding a grid coordinate, a generation counter
      or a rotation amount is an integer of [Z]; sums and differences are
      rounded as sums and differences of doubles are ([jsAdd], [jsSub]),
      while the products by 1 and -1 and the negations of the source are
      exact; the sign of a zero, which neither [===] nor a template
      literal observes, and the overflow to an infinity are not modelled;
    - an array is a [list], in index order;
    - [Array.prototype.filter], [map] and [find] are [filter], [map] and
      [find] of the list library, with boolean callbacks as in the source;
    - a [Map] with string keys is an association list in insertion order;
    - a function that can [throw] returns a [result]. *)

From stdpp Require Import base tactics strings pretty.
From Stdlib Require Import ZArith Lia Bool Ascii List Permutation.
Import ListNotations.

Open Scope Z_scope.

(** ** Numbers *)

(** The largest power of two up to which every integer is a double. *)
Definition twoTo53 : Z := 9007199254740992.

(** The double nearest to an integer, ties going to the even significand:
    an integer of magnitude at most 2^53 is a double; a larger one keeps
    the 53 leading bits of its magnitude, rounded. *)
Definition roundDouble (z : Z) : Z :=
  if Z.abs z <=? twoTo53 then z
  else
    let k := Z.log2 (Z.abs z) - 52 in
    let q := Z.abs z / 2 ^ k in
    let r := Z.abs z mod 2 ^ k in
    let half := 2 ^ (k - 1) in
    let m :=
      if r <? half then q
      else if half <? r then q + 1
      else if Z.even q then q else q + 1 in
    Z.sgn z * (m * 2 ^ k).

(** [a + b] and [a - b] on numbers that hold integers: the exact result
    rounded to the nearest double.  A zero operand leaves the other
    operand as it is. *)
Definition jsAdd (a b : Z) : Z :=
  if b =? 0 then a else if a =? 0 then b else roundDouble (a + b).

Definition jsSub (a b : Z) : Z :=
  if b =? 0 then a else roundDouble (a - b).

Infix "+#" := jsAdd (at level 50, left associativity).
Infix "-#" := jsSub (at level 50, left associativity).

(** The integers between [-(2^53 - 1)] and [2^53 - 1], those for which
    [Number.isSafeInteger] holds. *)
Definition safeInteger (z : Z) : Prop :=
  - (twoTo53 - 1) <= z <= twoTo53 - 1.

(** ** Data model *)

(** [type Location = { x: number; y: number }] *)
Record Location : Type := mkLocation { x : Z; y : Z }.

(** [state: "alive" | "dead"] *)
Inductive CellState : Type := alive | dead.

(** [type Cell = { location: Location; state: "alive" | "dead" }] *)
Record Cell : Type := mkCell { location : Location; state : CellState }.

(** [type World = { time: number; cells: Cell[] }] *)
Record World : Type := mkWorld { time : Z; cells : list Cell }.

(** ** Cell predicates and updates *)

Definition isAlive (cell : Cell) : bool :=
  match state cell with alive => true | dead => false end.

Definition isDead (cell : Cell) : bool := negb (isAlive cell).

(** [({ ...cell, state: "dead" })] *)
Definition kill (cell : Cell) : Cell :=
  {| location := location cell; state := dead |}.

(** [({ ...cell, state: "alive" })] *)
Definition vivify (cell : Cell) : Cell :=
  {| location := location cell; state := alive |}.

(** ** World queries *)

Definition isCellAtLocation (cell : Cell) (l : Location) : bool :=
  (x (location cell) =? x l) && (y (location cell) =? y l).

(** [world.cells.find(...) ?? { location, state: "dead" }] *)
Definition getCell (world : World) (l : Location) : Cell :=
  match find (fun c => isCellAtLocation c l) (cells world) with
  | Some c => c
  | None => {| location := l; state := dead |}
  end.

(** The eight locations of the Moore neighbourhood, in the source's order. *)
Definition neighborLocations (l : Location) : list Location :=
  [ {| x := x l -# 1; y := y l -# 1 |};
    {| x := x l;     y := y l -# 1 |};
    {| x := x l +# 1; y := y l -# 1 |};
    {| x := x l -# 1; y := y l |};
    {| x := x l +# 1; y := y l |};
    {| x := x l -# 1; y := y l +# 1 |};
    {| x := x l;     y := y l +# 1 |};
    {| x := x l +# 1; y := y l +# 1 |} ].

Definition getCellNeighbors (world : World) (cell : Cell) : list Cell :=
  map (fun l => getCell world l) (neighborLocations (location cell)).

Definition getLivingCellNeighbors (world : World) (cell : Cell) : list Cell :=
  filter isAlive (getCellNeighbors world cell).

Definition getDeadCellNeighbors (world : World) (cell : Cell) : list Cell :=
  filter isDead (getCellNeighbors world cell).

(** ** The transition rule for one cell *)

Definition getNextTickCell (world : World) (cell : Cell) : Cell :=
  let numLivingNeighbors := length (getLivingCellNeighbors world cell) in
  if isAlive cell then
    match numLivingNeighbors with
    | 2%nat | 3%nat => cell
    | _ => kill cell
    end
  else
    match numLivingNeighbors with
    | 3%nat => vivify cell
    | _ => cell
    end.

(** ** De-duplication through a string-keyed [Map] *)

(** The template literal [`${location.x}/${location.y}`]: both coordinates
    in decimal, separated by a slash. *)
Definition locationKey (l : Location) : string :=
  pretty (x l) +:+ "/" +:+ pretty (y l).

(** A [Map] (and the object built from its entries) keeps its entries in
    the order in which their keys were first inserted. *)
Definition JsMap (V : Type) : Type := list (string * V).

(** [index.set(k, v)]: a key already present keeps its position and gets
    the new value; a new key is appended. *)
Fixpoint mapSet {V : Type} (k : string) (v : V) (m : JsMap V) : JsMap V :=
  match m with
  | [] => [(k, v)]
  | (k', v') :: m' =>
      if String.eqb k' k then (k', v) :: m' else (k', v') :: mapSet k v m'
  end.

(** [Object.fromEntries(index)]: the properties are defined entry by
    entry.  No key of the form [x/y] is an array index, so the object
    enumerates its properties in creation order. *)
Definition fromEntries {V : Type} (m : JsMap V) : JsMap V :=
  fold_left (fun obj kv => mapSet (fst kv) (snd kv) obj) m [].

(** [Object.values(obj)] *)
Definition objectValues {V : Type} (obj : JsMap V) : list V := map snd obj.

Definition uniqueCells (cs : list Cell) : list Cell :=
  let index :=
    fold_left (fun idx cell => mapSet (locationKey (location cell)) cell idx)
              cs [] in
  objectValues (fromEntries index).

(** ** The tick *)

Definition getLivingCells (world : World) : list Cell :=
  filter isAlive (cells world).

Definition getDeadNeighborsOfLivingCells (world : World) : list Cell :=
  uniqueCells
    (fold_left (fun acc curr => acc ++ curr)
       (map (fun c => getDeadCellNeighbors world c)
            (filter isAlive (cells world)))
       []).

Definition tick (world : World) : World :=
  {| time := time world +# 1;
     cells := map (fun cell => getNextTickCell world cell)
                  (getLivingCells world ++ getDeadNeighborsOfLivingCells world) |}.

(** The number of living neighbours of a location, as [getNextTickCell]
    counts them for the cell that [getCell] gives there. *)
Definition numLivingNeighborsAt (world : World) (l : Location) : nat :=
  length (getLivingCellNeighbors world (getCell world l)).

(** The locations of the living cells of a world. *)
Definition livingLocations (world : World) : list Location :=
  map location (getLivingCells world).

(** ** Patterns *)

(** [type Pattern = (center?: Location) => Cell[]]: the argument may be
    omitted, and each pattern then falls back on its default parameter. *)
Definition Pattern : Type := option Location -> list Cell.

Definition origin : Location := {| x := 0; y := 0 |}.

(** The default parameter [center = { x: 0, y: 0 }]. *)
Definition orOrigin (center : option Location) : Location :=
  match center with Some c => c | None => origin end.

Definition blinker2 : Pattern := fun center =>
  let center := orOrigin center in
  [ {| location := {| x := x center -# 1; y := y center |}; state := alive |};
    {| location := {| x := x center;     y := y center |}; state := alive |};
    {| location := {| x := x center +# 1; y := y center |}; state := alive |} ].

Definition glider : Pattern := fun center =>
  let center := orOrigin center in
  [ {| location := {| x := x center -# 1; y := y center |};     state := alive |};
    {| location := {| x := x center;     y := y center |};     state := alive |};
    {| location := {| x := x center +# 1; y := y center |};     state := alive |};
    {| location := {| x := x center +# 1; y := y center +# 1 |}; state := alive |};
    {| location := {| x := x center;     y := y center +# 2 |}; state := alive |} ].

(** ** Pattern symmetries *)

Definition trans (pattern : Pattern) (relative : Location) : Pattern :=
  fun center =>
    let center := orOrigin center in
    pattern (Some {| x := x center +# x relative;
                     y := y center +# y relative |}).

(** The cells are taken from [pattern()] once, when [translate] is applied. *)
Definition translate (pattern : Pattern) (relative : Location) : Pattern :=
  let cs := pattern None in
  fun center =>
    let center := orOrigin center in
    map (fun cell =>
           {| location :=
                {| x := x center +# x (location cell) +# x relative;
                   y := x center +# y (location cell) +# y relative |};
              state := state cell |})
        cs.

(** [axis: "x" | "y"] *)
Inductive Axis : Type := AxisX | AxisY.

Definition mirror (pattern : Pattern) (axis : Axis) : Pattern :=
  let flip := match axis with AxisX => 1 | AxisY => -1 end in
  fun center =>
    let cs := pattern None in
    map (fun cell =>
           {| location :=
                {| x := flip * x (location cell);
                   y := -1 * flip * y (location cell) |};
              state := state cell |})
        cs.

Definition mirrorX (pattern : Pattern) : Pattern := mirror pattern AxisX.
Definition mirrorY (pattern : Pattern) : Pattern := mirror pattern AxisY.

(** ** Rotation *)

(** A computation that either returns a value or throws an [Error] with
    the given message. *)
Inductive result (A : Type) : Type :=
| Ok (a : A)
| Throw (message : string).
Arguments Ok {A} a.
Arguments Throw {A} message.

Definition bind {A B : Type} (r : result A) (k : A -> result B) : result B :=
  match r with
  | Ok a => k a
  | Throw m => Throw m
  end.

Notation "'try!' v <- r ; k" := (bind r (fun v => k))
  (at level 10, v name, r at level 100, k at level 200).

(** [xs.map(f)] for a callback that can throw: the first exception, in
    index order, ends the traversal. *)
Fixpoint mapResult {A B : Type} (f : A -> result B) (xs : list A)
  : result (list B) :=
  match xs with
  | [] => Ok []
  | a :: xs' => try! b <- f a; try! bs <- mapResult f xs'; Ok (b :: bs)
  end.

(** [type RotationDirection = "clockwise" | "counterclockwise"] *)
Inductive RotationDirection : Type := clockwise | counterclockwise.

(** [type Rotation].  The field [value] is declared with the type
    [RotationValue = 90 | 180 | 270 | -90 | -180 | -270]; at run time it
    is a number, and [rotateLocation] switches on it with a default case. *)
Record Rotation : Type := mkRotation {
  direction : RotationDirection;
  value : Z;
  center : Location
}.

(** The six members of the declared type [RotationValue]. *)
Definition RotationValue (v : Z) : Prop :=
  v = 90 \/ v = 180 \/ v = 270 \/ v = -90 \/ v = -180 \/ v = -270.

Definition rotateLocation (l : Location) (rotation : Rotation)
  : result Location :=
  let flip :=
    match direction rotation with clockwise => 1 | counterclockwise => -1 end in
  let rot90 (p : Location) : Location :=
    {| x := flip * (y p -# y (center rotation));
       y := -1 * flip * (x p -# x (center rotation)) |} in
  let nrot90 (p : Location) : Location :=
    {| x := -1 * flip * (y p -# y (center rotation));
       y := flip * (x p -# x (center rotation)) |} in
  let rot180 (p : Location) : Location :=
    {| x := - y p; y := - x p |} in
  if (value rotation =? 90) || (value rotation =? -270) then Ok (rot90 l)
  else if (value rotation =? -90) || (value rotation =? 270) then Ok (nrot90 l)
  else if value rotation =? 180 then Ok (rot180 l)
  else Throw EmptyString.

(** [rotate(pattern, value, direction = "counterclockwise")] *)
Definition rotate (pattern : Pattern) (v : Z)
    (dir : option RotationDirection) : option Location -> result (list Cell) :=
  let dir := match dir with Some d => d | None => counterclockwise end in
  fun center =>
    let center := orOrigin center in
    mapResult
      (fun p =>
         try! l <- rotateLocation (location p)
                     {| value := v; direction := dir; center := center |};
         Ok {| location := l; state := state p |})
      (pattern None).

(** ** Composition *)

(** [compose(...patterns)]: [cells.reverse()] reverses the flattened list
    before it is de-duplicated. *)
Definition compose (patterns : list Pattern) : list Cell :=
  let cs := flat_map (fun pattern => pattern None) patterns in
  uniqueCells (rev cs).


(** ** Reference definitions used by the statements *)

(** The translation as the specification words it: every cell of
    [pattern()] shifted by the one offset
    [(center.x + relative.x, center.y + relative.y)]. *)
Definition translateByOffset (pattern : Pattern) (relative : Location)
  : Pattern :=
  fun center =>
    let center := orOrigin center in
    map (fun cell =>
           {| location :=
                {| x := x center +# x (location cell) +# x relative;
                   y := y center +# y (location cell) +# y relative |};
              state := state cell |})
        (pattern None).

(** No character of the string is a slash. *)
Fixpoint noSlash (s : string) : Prop :=
  match s with
  | EmptyString => True
  | String a s' => a <> "/"%char /\ noSlash s'
  end.

(** The [Map] built by the [forEach] loop of [uniqueCells]. *)
Definition cellIndex (cs : list Cell) : JsMap Cell :=
  fold_left (fun idx cell => mapSet (locationKey (location cell)) cell idx)
            cs [].

(** Two one-cell patterns at the origin, one living and one dead. *)
Definition livingOrigin : Pattern := fun _ => [mkCell origin alive].
Definition deadOrigin : Pattern := fun _ => [mkCell origin dead].

(** The four rules as the [Rules] component words them: a live cell with
    fewer than two live neighbours dies, one with two or three lives on,
    one with more than three dies, and a dead cell with exactly three
    becomes a live cell. *)
Definition rulesNextAlive (aliveNow : bool) (liveNeighbours : nat) : bool :=
  if aliveNow
  then (2 <=? liveNeighbours)%nat && (liveNeighbours <=? 3)%nat
  else (liveNeighbours =? 3)%nat.

(** A location moved by the offset [d], and a cell and a world moved
    likewise; the generation of the world is kept. *)
Definition shiftLocation (d l : Location) : Location :=
  {| x := x l + x d; y := y l + y d |}.

Definition shiftCell (d : Location) (c : Cell) : Cell :=
  {| location := shiftLocation d (location c); state := state c |}.

Definition shiftWorld (d : Location) (w : World) : World :=
  {| time := time w; cells := map (shiftCell d) (cells w) |}.

(** The values that have a case in the [switch] of [rotateLocation]. *)
Definition supportedRotation (v : Z) : Prop :=
  v = 90 \/ v = -270 \/ v = -90 \/ v = 270 \/ v = 180.

(** The quarter turns among them. *)
Definition quarterTurn (v : Z) : Prop :=
  v = 90 \/ v = -90 \/ v = 270 \/ v = -270.

(** ** The board *)

(** [const root = 41; // must be odd] and the constants derived from it;
    the division is exact. *)
Definition root : Z := 41.
Definition numRows : Z := root.
Definition numColumns : Z := root.
Definition numRowsSigned : Z := (numRows - 1) / 2.
Definition numColumnsSigned : Z := (numColumns - 1) / 2.

(** The values taken by [i] in [for (let i = lo; i <= hi; i++)]. *)
Definition forRange (lo hi : Z) : list Z :=
  map (fun k => lo + Z.of_nat k) (seq 0 (Z.to_nat (hi - lo + 1))).

(** The two nested loops push one location per pair, the row loop
    innermost. *)
Definition getBoardCellLocations : list Location :=
  flat_map
    (fun cx =>
       map (fun cy => {| x := cx; y := cy |})
           (forRange (- numRowsSigned) numRowsSigned))
    (forRange (- numColumnsSigned) numColumnsSigned).

(** The numbers interpolated by [BoardCell] into [grid-row] and
    [grid-column]. *)
Definition gridRow (cy : Z) : Z := - cy + numRowsSigned + 1.
Definition gridColumn (cx : Z) : Z := cx + numColumnsSigned + 1.

(** The [states] of [Board]: each location of the board with the flag
    the query gives it. *)
Definition boardStates (w : World) : list (Z * Z * bool) :=
  map (fun l => (x l, y l, isAlive (getCell w l))) getBoardCellLocations.

(** ** The hook that drives the game *)

(** The two pieces of state of [useGameOfLife]. *)
Record GameState : Type := mkGameState { isRunning : bool; world : World }.

(** What can happen to the hook: a call of one of the functions it
    returns ([next] with the world of the current render, as the
    application calls it), or the timer of the effect firing. *)
Inductive GameEvent : Type :=
| Start | Stop | Toggle | Reset | Next | Timeout.

Definition initialGameState (initial : list Cell) : GameState :=
  {| isRunning := false; world := {| time := 0; cells := initial |} |}.

(** The state after an event.  The effect sets a timer only while
    [isRunning] holds and clears it when the state changes, so a firing
    timer finds the state it was set in. *)
Definition gameStep (initial : list Cell) (s : GameState) (e : GameEvent)
  : GameState :=
  match e with
  | Start => {| isRunning := true; world := world s |}
  | Stop => {| isRunning := false; world := world s |}
  | Toggle => {| isRunning := negb (isRunning s); world := world s |}
  | Reset => initialGameState initial
  | Next => {| isRunning := isRunning s; world := tick (world s) |}
  | Timeout =>
      if isRunning s
      then {| isRunning := isRunning s; world := tick (world s) |}
      else s
  end.

Definition gameRun (initial : list Cell) (events : list GameEvent)
  : GameState :=
  fold_left (gameStep initial) events (initialGameState initial).

(** Equality of locations can be decided. *)
Definition Location_eq_dec (l1 l2 : Location) : {l1 = l2} + {l1 <> l2}.
Proof. decide equality; apply Z.eq_dec. Defined.

(** A location whose two coordinates are safe integers, and a location
    whose two coordinates have a magnitude of at most [b]. *)
Definition safeLocation (l : Location) : Prop :=
  safeInteger (x l) /\ safeInteger (y l).

Definition withinBound (b : Z) (l : Location) : Prop :=
  Z.abs (x l) <= b /\ Z.abs (y l) <= b.

(** Both coordinates have a magnitude of at most [b], as a test. *)
Definition inBox (b : Z) (l : Location) : bool :=
  (Z.abs (x l) <=? b) && (Z.abs (y l) <=? b).

(** Bounds under which chains of a few sums stay exact: 2^51 and 2^52. *)
Definition twoTo51 : Z := 2251799813685248.
Definition twoTo52 : Z := 4503599627370496.

(** The living cells of [w], and their images under the shift by [d],
    leave room for two exact steps. *)
Definition shiftExact (d : Location) (w : World) : Prop :=
  forall c, In c (cells w) -> isAlive c = true ->
    withinBound (twoTo53 - 2) (location c) /\
    withinBound (twoTo53 - 2) (shiftLocation d (location c)).

(** * Properties *)

(** ** The key of a location determines the location *)

Lemma pretty_N_char_noSlash (n : N) : pretty_N_char n <> "/"%char.
Proof. unfold pretty_N_char. repeat case_match; discriminate. Qed.

Lemma pretty_N_go_noSlash (n : N) (s : string) :
  noSlash s -> noSlash (pretty_N_go n s).
Proof.
  revert s. induction (N.lt_wf_0 n) as [n _ IH]; intros s Hs.
  destruct (decide (n = 0%N)) as [->|Hn].
  - by rewrite pretty_N_go_0.
  - rewrite pretty_N_go_step by lia. apply IH.
    + apply N.div_lt; lia.
    + split; [apply pretty_N_char_noSlash | exact Hs].
Qed.

Lemma pretty_N_noSlash (n : N) : noSlash (pretty n).
Proof.
  unfold pretty, pretty_N. case_decide.
  - simpl. split; [discriminate | exact I].
  - apply pretty_N_go_noSlash. exact I.
Qed.

Lemma pretty_Z_noSlash (z : Z) : noSlash (pretty z).
Proof.
  destruct z as [|p|p]; unfold pretty, pretty_Z.
  - simpl. split; [discriminate | exact I].
  - apply pretty_N_noSlash.
  - simpl. split; [discriminate | apply pretty_N_noSlash].
Qed.

(** Two strings without a slash, each followed by a slash and a rest: the
    first slash marks the same split in both. *)
Lemma append_slash_inj (s1 s2 t1 t2 : string) :
  noSlash s1 -> noSlash s2 ->
  s1 +:+ "/" +:+ t1 = s2 +:+ "/" +:+ t2 -> s1 = s2 /\ t1 = t2.
Proof.
  revert s2. induction s1 as [|a s1 IH]; intros [|b s2] H1 H2 Heq;
    simpl in *.
  - by inversion Heq.
  - inversion Heq; subst. by destruct H2 as [[] _].
  - inversion Heq; subst. by destruct H1 as [[] _].
  - inversion Heq; subst. destruct H1 as [_ H1], H2 as [_ H2].
    destruct (IH s2 H1 H2) as [-> ->]; auto.
Qed.

Lemma locationKey_inj (l1 l2 : Location) :
  locationKey l1 = locationKey l2 -> l1 = l2.
Proof.
  unfold locationKey. intros Heq.
  apply append_slash_inj in Heq as [Hx Hy]; auto using pretty_Z_noSlash.
  apply (inj pretty) in Hx. apply (inj pretty) in Hy.
  destruct l1, l2; simpl in *; congruence.
Qed.

(** ** Insertion into a [Map] *)

Section MapSet.
Context {V : Type}.
Implicit Types (m : JsMap V) (k : string) (v : V) (p : V -> bool).

Lemma mapSet_keys k v m :
  map fst (mapSet k v m) =
  if in_dec String.string_dec k (map fst m) then map fst m else map fst m ++ [k].
Proof.
  induction m as [|[k' v'] m IH]; simpl; [done|].
  destruct (String.eqb_spec k' k) as [->|Hne]; simpl.
  - destruct (String.string_dec k k); [|done].
    destruct (in_dec _ _ _); done.
  - rewrite IH. destruct (String.string_dec k' k); [done|].
    destruct (in_dec String.string_dec k (map fst m)); done.
Qed.

Lemma mapSet_NoDup k v m :
  NoDup (map fst m) -> NoDup (map fst (mapSet k v m)).
Proof.
  intros Hm. rewrite mapSet_keys. destruct (in_dec _ _ _) as [|Hnin]; [done|].
  apply NoDup_app; [done | |].
  - constructor; [intros [] | constructor].
  - intros k' Hin [<-|[]]. done.
Qed.

(** Every entry after the insertion is an old entry or carries the
    inserted value under the inserted key. *)
Lemma mapSet_In k v m k' v' :
  In (k', v') (mapSet k v m) -> In (k', v') m \/ (k' = k /\ v' = v).
Proof.
  induction m as [|[k0 v0] m IH]; simpl.
  - intros [[= <- <-]|[]]. by right.
  - destruct (String.eqb_spec k0 k) as [->|Hne]; simpl.
    + intros [[= <- <-]|Hin]; auto.
    + intros [Heq|Hin]; auto. destruct (IH Hin); auto.
Qed.

(** The inserted value is the first one satisfying [p] when the values
    satisfying [p] sit under the inserted key only. *)
Lemma mapSet_find_hit k v m p :
  p v = true ->
  (forall k' v', In (k', v') m -> p v' = true -> k' = k) ->
  find p (map snd (mapSet k v m)) = Some v.
Proof.
  intros Hv. induction m as [|[k0 v0] m IH]; intros Hm; simpl.
  - by rewrite Hv.
  - destruct (String.eqb_spec k0 k) as [->|Hne]; simpl.
    + by rewrite Hv.
    + destruct (p v0) eqn:Hp0.
      * destruct Hne. apply (Hm k0 v0); simpl; auto.
      * apply IH. intros k' v' Hin. apply Hm. simpl; auto.
Qed.

(** An insertion that neither adds nor removes a value satisfying [p]
    leaves the first such value in place. *)
Lemma mapSet_find_miss k v m p :
  p v = false ->
  (forall v', In (k, v') m -> p v' = false) ->
  find p (map snd (mapSet k v m)) = find p (map snd m).
Proof.
  intros Hv. induction m as [|[k0 v0] m IH]; intros Hm; simpl.
  - by rewrite Hv.
  - destruct (String.eqb_spec k0 k) as [->|Hne]; simpl.
    + rewrite Hv, (Hm v0); simpl; auto.
    + destruct (p v0); [done|]. apply IH. intros v' Hin. apply Hm.
      simpl; auto.
Qed.

Lemma mapSet_fresh k v m :
  ~ In k (map fst m) -> mapSet k v m = m ++ [(k, v)].
Proof.
  induction m as [|[k0 v0] m IH]; simpl; [done|]. intros Hnin.
  destruct (String.eqb_spec k0 k) as [->|Hne]; [tauto|].
  rewrite IH; tauto.
Qed.

(** The object built from the entries of a [Map] lists them unchanged. *)
Lemma fromEntries_NoDup m : NoDup (map fst m) -> fromEntries m = m.
Proof.
  unfold fromEntries.
  enough (Hgen : forall acc, NoDup (map fst (acc ++ m)) ->
            fold_left (fun obj kv => mapSet (fst kv) (snd kv) obj) m acc
            = acc ++ m) by (intros; by apply (Hgen [])).
  induction m as [|[k v] m IH]; intros acc Hnd; simpl.
  - by rewrite app_nil_r.
  - rewrite mapSet_fresh.
    + rewrite IH; rewrite <- app_assoc; done.
    + rewrite map_app in Hnd. simpl in Hnd.
      apply NoDup_remove_2 in Hnd. rewrite in_app_iff in Hnd.
      tauto.
Qed.
End MapSet.

(** ** The first cell at a location *)

Lemma isCellAtLocation_true (c : Cell) (l : Location) :
  isCellAtLocation c l = true <-> location c = l.
Proof.
  unfold isCellAtLocation. rewrite andb_true_iff, !Z.eqb_eq.
  destruct c as [[cx cy] s], l as [lx ly]; simpl. split.
  - intros [-> ->]. done.
  - intros [= -> ->]. done.
Qed.

Lemma isCellAtLocation_false (c : Cell) (l : Location) :
  isCellAtLocation c l = false <-> location c <> l.
Proof.
  rewrite <- isCellAtLocation_true. destruct (isCellAtLocation c l); split;
    congruence.
Qed.

Lemma find_at_Some (l : Location) (cs : list Cell) (c : Cell) :
  find (fun c' => isCellAtLocation c' l) cs = Some c ->
  In c cs /\ location c = l.
Proof.
  intros [Hin Hat]%find_some. by apply isCellAtLocation_true in Hat.
Qed.

Lemma find_at_None (l : Location) (cs : list Cell) :
  find (fun c' => isCellAtLocation c' l) cs = None <->
  ~ In l (map location cs).
Proof.
  induction cs as [|c cs IH]; simpl; [tauto|].
  destruct (isCellAtLocation c l) eqn:Hat.
  - apply isCellAtLocation_true in Hat. split; [done | tauto].
  - apply isCellAtLocation_false in Hat. rewrite IH. tauto.
Qed.

(** Where locations are not repeated, the first cell at the location of a
    member is that member. *)
Lemma find_at_NoDup (cs : list Cell) (c : Cell) :
  NoDup (map location cs) -> In c cs ->
  find (fun c' => isCellAtLocation c' (location c)) cs = Some c.
Proof.
  induction cs as [|c0 cs IH]; simpl; [done|].
  intros Hnd Hin. inversion Hnd as [|? ? Hnin Hnd']; subst.
  destruct Hin as [->|Hin].
  - by rewrite (proj2 (isCellAtLocation_true c (location c)) eq_refl).
  - destruct (isCellAtLocation c0 (location c)) eqn:Hat; [|auto].
    apply isCellAtLocation_true in Hat. destruct Hnin. rewrite Hat.
    by apply in_map.
Qed.

(** The first cell satisfying a predicate splits the list. *)
Lemma find_split {A : Type} (p : A -> bool) (xs : list A) (a : A) :
  find p xs = Some a ->
  exists pre post, xs = pre ++ a :: post /\ forall b, In b pre -> p b = false.
Proof.
  induction xs as [|b xs IH]; simpl; [done|].
  destruct (p b) eqn:Hb.
  - intros [= ->]. exists [], xs. split; [done | intros ? []].
  - intros (pre & post & -> & Hpre)%IH. exists (b :: pre), post.
    split; [done|]. intros b' [<-|Hin]; auto.
Qed.

(** ** What [uniqueCells] keeps *)

Lemma cellIndex_snoc (cs : list Cell) (c : Cell) :
  cellIndex (cs ++ [c]) = mapSet (locationKey (location c)) c (cellIndex cs).
Proof. unfold cellIndex. by rewrite fold_left_app. Qed.

(** Loop invariant: the keys are distinct, every value sits under the key
    of its own location, and the first indexed value at a location is the
    last cell of the input at that location. *)
Lemma cellIndex_invariant (cs : list Cell) :
  NoDup (map fst (cellIndex cs)) /\
  (forall k v, In (k, v) (cellIndex cs) -> k = locationKey (location v)) /\
  (forall l, find (fun c => isCellAtLocation c l) (map snd (cellIndex cs))
             = find (fun c => isCellAtLocation c l) (rev cs)).
Proof.
  induction cs as [|c cs (Hnd & Hkey & Hfind)] using rev_ind.
  - repeat split; [constructor | intros ? ? []].
  - rewrite cellIndex_snoc. split; [by apply mapSet_NoDup|]. split.
    + intros k v [Hin|[-> ->]]%mapSet_In; auto.
    + intros l. rewrite rev_unit. simpl.
      destruct (isCellAtLocation c l) eqn:Hat.
      * apply mapSet_find_hit; [done|]. intros k' v' Hin Hv'.
        apply isCellAtLocation_true in Hat, Hv'.
        rewrite (Hkey _ _ Hin). congruence.
      * rewrite <- Hfind. apply mapSet_find_miss; [done|]. intros v' Hin.
        apply isCellAtLocation_false in Hat. apply isCellAtLocation_false.
        apply Hkey, locationKey_inj in Hin. congruence.
Qed.

Lemma uniqueCells_values (cs : list Cell) :
  uniqueCells cs = map snd (cellIndex cs).
Proof.
  unfold uniqueCells, objectValues. fold (cellIndex cs).
  rewrite fromEntries_NoDup; [done|]. apply cellIndex_invariant.
Qed.

Lemma uniqueCells_NoDup (cs : list Cell) :
  NoDup (map location (uniqueCells cs)).
Proof.
  rewrite uniqueCells_values.
  destruct (cellIndex_invariant cs) as (Hnd & Hkey & _).
  apply (NoDup_map_inv locationKey). rewrite !map_map.
  erewrite map_ext_in; [exact Hnd|]. intros [k v] Hin; simpl.
  symmetry. by apply Hkey.
Qed.

Lemma uniqueCells_find (cs : list Cell) (l : Location) :
  find (fun c => isCellAtLocation c l) (uniqueCells cs)
  = find (fun c => isCellAtLocation c l) (rev cs).
Proof. rewrite uniqueCells_values. apply cellIndex_invariant. Qed.

Lemma uniqueCells_locations (cs : list Cell) (l : Location) :
  In l (map location (uniqueCells cs)) <-> In l (map location cs).
Proof.
  destruct (find (fun c => isCellAtLocation c l) (rev cs)) as [c|] eqn:Hf.
  - pose proof Hf as Hu. rewrite <- uniqueCells_find in Hu.
    apply find_at_Some in Hf as [Hin <-], Hu as [Hin' _].
    apply in_rev in Hin. split; intros _; by apply in_map.
  - pose proof Hf as Hu. rewrite <- uniqueCells_find in Hu.
    apply find_at_None in Hf, Hu. rewrite map_rev, <- in_rev in Hf. tauto.
Qed.

Lemma uniqueCells_In (cs : list Cell) (c : Cell) :
  In c (uniqueCells cs) -> In c cs.
Proof.
  intros Hin.
  pose proof (find_at_NoDup _ _ (uniqueCells_NoDup cs) Hin) as Hf.
  rewrite uniqueCells_find in Hf. apply find_at_Some in Hf as [Hf _].
  by apply in_rev.
Qed.

(** Every kept cell is the last cell of the input at its location. *)
Lemma uniqueCells_last (cs : list Cell) (c : Cell) :
  In c (uniqueCells cs) ->
  exists pre post,
    cs = pre ++ c :: post /\
    forall c', In c' post -> location c' <> location c.
Proof.
  intros Hin.
  pose proof (find_at_NoDup _ _ (uniqueCells_NoDup cs) Hin) as Hf.
  rewrite uniqueCells_find in Hf.
  apply find_split in Hf as (pre & post & Hrev & Hpre).
  exists (rev post), (rev pre). split.
  - rewrite <- (rev_involutive cs), Hrev, rev_app_distr. simpl.
    by rewrite <- app_assoc.
  - intros c' Hc'%in_rev. by apply isCellAtLocation_false, Hpre.
Qed.

(** ** Point queries *)

Lemma getCell_location (w : World) (l : Location) :
  location (getCell w l) = l.
Proof.
  unfold getCell.
  destruct (find _ (cells w)) as [c|] eqn:Hf; [|done].
  apply find_at_Some in Hf. tauto.
Qed.

Lemma getCell_absent (w : World) (l : Location) :
  (forall c, In c (cells w) -> location c <> l) ->
  getCell w l = {| location := l; state := dead |}.
Proof.
  intros Hno. unfold getCell.
  destruct (find _ (cells w)) as [c|] eqn:Hf; [|done].
  apply find_at_Some in Hf as [Hin Hl]. by destruct (Hno c Hin).
Qed.

Lemma getCell_member (w : World) (c : Cell) :
  NoDup (map location (cells w)) -> In c (cells w) ->
  getCell w (location c) = c.
Proof. intros Hnd Hin. unfold getCell. by rewrite find_at_NoDup. Qed.

(** A dead cell is determined by its location. *)
Lemma dead_cell_eq (c : Cell) (l : Location) :
  location c = l -> isAlive c = false -> c = {| location := l; state := dead |}.
Proof. destruct c as [l' []]; unfold isAlive; simpl; congruence. Qed.

(** ** The candidates of a tick *)

Lemma getNextTickCell_location (w : World) (c : Cell) :
  location (getNextTickCell w c) = location c.
Proof.
  unfold getNextTickCell.
  destruct (isAlive c);
    destruct (length (getLivingCellNeighbors w c)) as [|[|[|[|n]]]]; done.
Qed.

(** The [reduce] that appends the chunks one after the other. *)
Lemma fold_left_app_concat {A : Type} (ls : list (list A)) (acc : list A) :
  fold_left (fun acc curr => acc ++ curr) ls acc = acc ++ concat ls.
Proof.
  revert acc. induction ls as [|l ls IH]; intros acc; simpl.
  - by rewrite app_nil_r.
  - by rewrite IH, app_assoc.
Qed.

(** The dead candidates are exactly the dead answers of [getCell] around
    the living cells. *)
Lemma deadNeighbors_In (w : World) (c : Cell) :
  In c (getDeadNeighborsOfLivingCells w) ->
  exists c0, In c0 (cells w) /\ isAlive c0 = true /\
             In (location c) (neighborLocations (location c0)) /\
             c = getCell w (location c) /\ isAlive c = false.
Proof.
  unfold getDeadNeighborsOfLivingCells. intros Hin%uniqueCells_In.
  rewrite fold_left_app_concat in Hin. simpl in Hin.
  apply in_concat in Hin as (chunk & Hchunk & Hin).
  apply in_map_iff in Hchunk as (c0 & <- & [Hc0 Halive]%filter_In).
  unfold getDeadCellNeighbors, getCellNeighbors in Hin.
  apply filter_In in Hin as [Hin Hdead].
  apply in_map_iff in Hin as (l & <- & Hl).
  exists c0. rewrite getCell_location. repeat split; auto.
  unfold isDead in Hdead. by apply negb_true_iff.
Qed.

Lemma deadNeighbors_candidate (w : World) (c0 : Cell) (l : Location) :
  In c0 (cells w) -> isAlive c0 = true ->
  In l (neighborLocations (location c0)) ->
  isAlive (getCell w l) = false ->
  In (getCell w l) (getDeadNeighborsOfLivingCells w).
Proof.
  intros Hc0 Halive Hl Hdead.
  assert (Hloc : In l (map location (getDeadNeighborsOfLivingCells w))).
  { unfold getDeadNeighborsOfLivingCells. apply uniqueCells_locations.
    rewrite fold_left_app_concat. simpl.
    rewrite <- (getCell_location w l). apply in_map.
    apply in_concat. exists (getDeadCellNeighbors w c0). split.
    - apply in_map. by apply filter_In.
    - unfold getDeadCellNeighbors, getCellNeighbors. apply filter_In. split.
      + by apply (in_map (fun l => getCell w l)).
      + unfold isDead. by rewrite Hdead. }
  apply in_map_iff in Hloc as (c & <- & Hin).
  apply deadNeighbors_In in Hin as Hc. destruct Hc as (_ & _ & _ & _ & Heq & _).
  by rewrite <- Heq.
Qed.

Lemma filter_NoDup_locations (p : Cell -> bool) (cs : list Cell) :
  NoDup (map location cs) -> NoDup (map location (filter p cs)).
Proof.
  induction cs as [|c cs IH]; simpl; [done|].
  intros Hnd. inversion Hnd as [|? ? Hnin Hnd']; subst.
  destruct (p c); simpl; auto. constructor; auto.
  intros (c' & Hl & [Hin _]%filter_In)%in_map_iff. apply Hnin.
  rewrite <- Hl. by apply in_map.
Qed.

Lemma tick_locations (w : World) :
  map location (cells (tick w))
  = map location (getLivingCells w)
    ++ map location (getDeadNeighborsOfLivingCells w).
Proof.
  unfold tick. simpl. rewrite map_map, <- map_app. apply map_ext.
  intros c. apply getNextTickCell_location.
Qed.

(** * The claims *)

(** ** C1: the blinker *)

Example tick_blinker_living :
  getLivingCells (tick (mkWorld 0 (blinker2 None)))
  = [ mkCell (mkLocation 0 0) alive;
      mkCell (mkLocation 0 (-1)) alive;
      mkCell (mkLocation 0 1) alive ].
Proof. reflexivity. Qed.

Example tick_blinker_time : time (tick (tick (mkWorld 0 (blinker2 None)))) = 2.
Proof. reflexivity. Qed.

(** A list that is a rearrangement of three given elements is one of the
    six orderings. *)
Lemma Permutation_three {A : Type} (a b c : A) (xs : list A) :
  Permutation xs [a; b; c] ->
  xs = [a; b; c] \/ xs = [a; c; b] \/ xs = [b; a; c] \/
  xs = [b; c; a] \/ xs = [c; a; b] \/ xs = [c; b; a].
Proof.
  intros Hp. destruct (Permutation_vs_cons_inv Hp) as (l1 & l2 & ->).
  symmetry in Hp. apply Permutation_cons_app_inv in Hp.
  apply Permutation_length_2_inv in Hp.
  destruct l1 as [|y1 [|y2 [|y3 l1]]]; simpl in *;
    destruct Hp as [Hp|Hp]; try discriminate Hp; inversion Hp; subst; tauto.
Qed.

(** C1.  A world of generation 0 whose cells are the three living cells at
    (-1,0), (0,0), (1,0), listed in any order: after one tick the living
    cells are at exactly (0,-1), (0,0), (0,1), and after two ticks at
    exactly (-1,0), (0,0), (1,0), both compared as sets of locations. *)
Theorem blinker_period_2 (cs : list Cell) :
  Permutation cs (blinker2 None) ->
  (forall l, In l (livingLocations (tick (mkWorld 0 cs)))
             <-> In l [mkLocation 0 (-1); mkLocation 0 0; mkLocation 0 1]) /\
  (forall l, In l (livingLocations (tick (tick (mkWorld 0 cs))))
             <-> In l [mkLocation (-1) 0; mkLocation 0 0; mkLocation 1 0]).
Proof.
  intros Hp. apply Permutation_three in Hp.
  destruct Hp as [-> | [-> | [-> | [-> | [-> | ->]]]]];
    split; intros l; vm_compute; tauto.
Qed.

Lemma blinker_period_2_witness :
  (forall l, In l (livingLocations (tick (mkWorld 0 (blinker2 None))))
             <-> In l [mkLocation 0 (-1); mkLocation 0 0; mkLocation 0 1]) /\
  (forall l, In l (livingLocations (tick (tick (mkWorld 0 (blinker2 None)))))
             <-> In l [mkLocation (-1) 0; mkLocation 0 0; mkLocation 1 0]).
Proof. apply (blinker_period_2 (blinker2 None)). reflexivity. Defined.

(** ** C2: the point query *)

Example getCell_tracked :
  getCell (mkWorld 0 (blinker2 None)) (mkLocation 1 0)
  = mkCell (mkLocation 1 0) alive.
Proof. reflexivity. Qed.

Example getCell_untracked :
  getCell (mkWorld 0 (blinker2 None)) (mkLocation 5 (-7))
  = mkCell (mkLocation 5 (-7)) dead.
Proof. reflexivity. Qed.

(** C2.  [getCell] is a total function: for every world and every
    location it returns a cell at that location; and when no cell of the
    world is at the location, that cell is the dead cell at the location. *)
Theorem getCell_total_absent_dead (w : World) (l : Location) :
  (exists c, getCell w l = c /\ location c = l) /\
  ((forall c, In c (cells w) -> location c <> l) ->
   getCell w l = {| location := l; state := dead |}).
Proof.
  split.
  - exists (getCell w l). split; [reflexivity | apply getCell_location].
  - apply getCell_absent.
Qed.

Lemma getCell_total_absent_dead_witness :
  getCell (mkWorld 0 (blinker2 None)) (mkLocation 0 1)
  = {| location := mkLocation 0 1; state := dead |}.
Proof.
  apply (proj2 (getCell_total_absent_dead
                  (mkWorld 0 (blinker2 None)) (mkLocation 0 1))).
  simpl. intros c [<-|[<-|[<-|[]]]]; discriminate.
Defined.

(** ** C3: dead candidates that stay dead *)

Example tick_single_cell :
  cells (tick (mkWorld 0 [mkCell origin alive]))
  = [ mkCell (mkLocation 0 0) dead;
      mkCell (mkLocation (-1) (-1)) dead; mkCell (mkLocation 0 (-1)) dead;
      mkCell (mkLocation 1 (-1)) dead;    mkCell (mkLocation (-1) 0) dead;
      mkCell (mkLocation 1 0) dead;       mkCell (mkLocation (-1) 1) dead;
      mkCell (mkLocation 0 1) dead;       mkCell (mkLocation 1 1) dead ].
Proof. reflexivity. Qed.

(** The claim as stated fails: around a single living cell at the origin,
    (1,0) is dead, next to a living cell and has one living neighbour, and
    the next world lists a cell at (1,0). *)
Lemma tick_lists_dead_candidate :
  isAlive (getCell (mkWorld 0 [mkCell origin alive]) (mkLocation 1 0)) = false /\
  (exists c, In c (cells (mkWorld 0 [mkCell origin alive])) /\
             isAlive c = true /\
             In (mkLocation 1 0) (neighborLocations (location c))) /\
  numLivingNeighborsAt (mkWorld 0 [mkCell origin alive]) (mkLocation 1 0)
    <> 3%nat /\
  ~ (forall c, In c (cells (tick (mkWorld 0 [mkCell origin alive]))) ->
               location c <> mkLocation 1 0).
Proof.
  split; [reflexivity|]. split.
  - exists (mkCell origin alive). simpl. tauto.
  - split; [discriminate|]. intros H.
    apply (H (mkCell (mkLocation 1 0) dead)); [|reflexivity].
    vm_compute. tauto.
Qed.

(** C3, amended.  A location that is dead in the world, next to one of its
    living cells, with a number of living neighbours other than 3, is
    listed in the next world as a dead cell; and when the world has at
    most one cell per location, every cell of the next world at that
    location is that dead cell. *)
Theorem tick_keeps_dead_candidate (w : World) (l : Location) :
  isAlive (getCell w l) = false ->
  (exists c, In c (cells w) /\ isAlive c = true /\
             In l (neighborLocations (location c))) ->
  numLivingNeighborsAt w l <> 3%nat ->
  In {| location := l; state := dead |} (cells (tick w)) /\
  (NoDup (map location (cells w)) ->
   forall c, In c (cells (tick w)) -> location c = l ->
             c = {| location := l; state := dead |}).
Proof.
  intros Hdead (c0 & Hc0 & Halive & Hl) Hcount.
  assert (Hstay : getNextTickCell w (getCell w l) = getCell w l).
  { unfold getNextTickCell. rewrite Hdead.
    unfold numLivingNeighborsAt in Hcount.
    destruct (length _) as [|[|[|[|n]]]]; done. }
  assert (Heq : getCell w l = {| location := l; state := dead |})
    by (apply dead_cell_eq; [apply getCell_location | exact Hdead]).
  split.
  - rewrite <- Heq, <- Hstay. unfold tick; simpl.
    apply in_map, in_app_iff. right. by apply (deadNeighbors_candidate w c0).
  - intros Hnd c Hin Hloc. unfold tick in Hin; simpl in Hin.
    apply in_map_iff in Hin as (c1 & <- & Hin).
    rewrite getNextTickCell_location in Hloc.
    apply in_app_iff in Hin as [Hin|Hin].
    + apply filter_In in Hin as [Hin Hc1].
      rewrite <- Hloc, (getCell_member w c1 Hnd Hin) in Hdead. congruence.
    + apply deadNeighbors_In in Hin as (_ & _ & _ & _ & Hc1 & _).
      rewrite Hloc in Hc1. rewrite Hc1, Hstay. exact Heq.
Qed.

Lemma tick_keeps_dead_candidate_witness :
  In {| location := mkLocation 1 0; state := dead |}
     (cells (tick (mkWorld 0 [mkCell origin alive]))) /\
  (NoDup (map location (cells (mkWorld 0 [mkCell origin alive]))) ->
   forall c, In c (cells (tick (mkWorld 0 [mkCell origin alive]))) ->
             location c = mkLocation 1 0 ->
             c = {| location := mkLocation 1 0; state := dead |}).
Proof.
  apply (tick_keeps_dead_candidate
           (mkWorld 0 [mkCell origin alive]) (mkLocation 1 0)).
  - reflexivity.
  - exists (mkCell origin alive). simpl. tauto.
  - discriminate.
Defined.

(** ** C4: one cell per location *)

(** C4.  When no two cells of a world share a location, no two cells of
    the next world do. *)
Theorem tick_preserves_unique_locations (w : World) :
  NoDup (map location (cells w)) -> NoDup (map location (cells (tick w))).
Proof.
  intros Hnd. rewrite tick_locations. apply NoDup_app.
  - by apply filter_NoDup_locations.
  - apply uniqueCells_NoDup.
  - intros l (c1 & <- & [Hin Halive]%filter_In)%in_map_iff
             (c2 & Hloc & Hdead)%in_map_iff.
    apply deadNeighbors_In in Hdead as (_ & _ & _ & _ & Hc2 & Hdead).
    rewrite Hloc, (getCell_member w c1 Hnd Hin) in Hc2. congruence.
Qed.

Lemma tick_preserves_unique_locations_witness :
  NoDup (map location (cells (tick (mkWorld 0 (glider None))))).
Proof.
  apply (tick_preserves_unique_locations (mkWorld 0 (glider None))).
  simpl. repeat constructor; simpl; intuition discriminate.
Defined.

(** ** C5: composition *)

Example compose_blinker_glider :
  map location (compose [blinker2; glider])
  = [ mkLocation 0 2; mkLocation 1 1; mkLocation 1 0; mkLocation 0 0;
      mkLocation (-1) 0 ].
Proof. reflexivity. Qed.

(** The claim as stated fails: of a living and a dead cell at the origin,
    given in this order, the living one of the earlier entry is kept,
    where the last cell of the flattened input at the origin is the dead
    one. *)
Lemma compose_keeps_earlier_entry :
  flat_map (fun pattern : Pattern => pattern None) [livingOrigin; deadOrigin]
  = [mkCell origin alive; mkCell origin dead] /\
  compose [livingOrigin; deadOrigin] = [mkCell origin alive] /\
  find (fun c => isCellAtLocation c origin)
       (compose [livingOrigin; deadOrigin])
  <> find (fun c => isCellAtLocation c origin)
          (rev (flat_map (fun pattern : Pattern => pattern None)
                         [livingOrigin; deadOrigin])).
Proof. repeat split. vm_compute. discriminate. Qed.

(** C5, amended.  [compose] returns a list with at most one cell per
    location, with the locations of all the cells the patterns produce,
    and at a location produced more than once it keeps the first cell in
    the input order: the earlier entry wins. *)
Theorem compose_first_wins (patterns : list Pattern) :
  NoDup (map location (compose patterns)) /\
  (forall l, In l (map location (compose patterns))
             <-> In l (map location
                         (flat_map (fun pattern => pattern None) patterns))) /\
  (forall c, In c (compose patterns) ->
     exists pre post,
       flat_map (fun pattern => pattern None) patterns = pre ++ c :: post /\
       forall c', In c' pre -> location c' <> location c).
Proof.
  unfold compose. split; [apply uniqueCells_NoDup|]. split.
  - intros l. rewrite uniqueCells_locations, map_rev, <- in_rev. tauto.
  - intros c (pre & post & Hrev & Hpost)%uniqueCells_last.
    exists (rev post), (rev pre). split.
    + rewrite <- (rev_involutive (flat_map _ _)), Hrev, rev_app_distr.
      simpl. by rewrite <- app_assoc.
    + intros c' Hc'%in_rev. by apply Hpost.
Qed.

(** ** C6: the rotation values *)

Lemma rotateLocation_throws_iff (l : Location) (r : Rotation) :
  rotateLocation l r = Throw EmptyString <->
  value r <> 90 /\ value r <> -270 /\ value r <> -90 /\ value r <> 270 /\
  value r <> 180.
Proof.
  unfold rotateLocation.
  destruct (Z.eqb_spec (value r) 90), (Z.eqb_spec (value r) (-270)),
    (Z.eqb_spec (value r) (-90)), (Z.eqb_spec (value r) 270),
    (Z.eqb_spec (value r) 180); simpl; split;
    (discriminate || tauto || done).
Qed.

(** C6, at the failing input.  The value -180 belongs to the declared
    type of rotation values, and [rotateLocation] throws on it whatever
    the location, the direction and the center; so does the pattern
    [rotate(glider, -180)] when it is called. *)
Theorem rotateLocation_minus_180_throws :
  RotationValue (-180) /\
  (forall l d c, rotateLocation l (mkRotation d (-180) c) = Throw EmptyString) /\
  rotate glider (-180) None None = Throw EmptyString.
Proof.
  split; [unfold RotationValue; tauto|]. split; [|reflexivity].
  intros l d c. apply rotateLocation_throws_iff. simpl. lia.
Qed.

(** ** C7: translation *)

(** What [translate] computes: the second coordinate is shifted by the
    first coordinate of the center. *)
Lemma translate_cells (pattern : Pattern) (relative : Location)
    (c : option Location) :
  translate pattern relative c
  = map (fun cell =>
           {| location :=
                {| x := x (orOrigin c) +# x (location cell) +# x relative;
                   y := x (orOrigin c) +# y (location cell) +# y relative |};
              state := state cell |})
        (pattern None).
Proof. reflexivity. Qed.

(** On a center with equal coordinates, the default one included, the two
    translations agree. *)
Lemma translate_diagonal_center (pattern : Pattern) (relative : Location)
    (c : option Location) :
  x (orOrigin c) = y (orOrigin c) ->
  translate pattern relative c = translateByOffset pattern relative c.
Proof.
  intros Hxy. unfold translate, translateByOffset. simpl. by rewrite Hxy.
Qed.

(** C7, at the failing input.  Translating the blinker by no offset to the
    center (1,0) puts it on the row y = 1, where the shift by the center
    puts it on the row y = 0. *)
Theorem translate_shifts_y_by_center_x :
  translate blinker2 origin (Some (mkLocation 1 0))
  = [ mkCell (mkLocation 0 1) alive; mkCell (mkLocation 1 1) alive;
      mkCell (mkLocation 2 1) alive ] /\
  translateByOffset blinker2 origin (Some (mkLocation 1 0))
  = [ mkCell (mkLocation 0 0) alive; mkCell (mkLocation 1 0) alive;
      mkCell (mkLocation 2 0) alive ] /\
  translate blinker2 origin (Some (mkLocation 1 0))
  <> translateByOffset blinker2 origin (Some (mkLocation 1 0)).
Proof. repeat split. vm_compute. discriminate. Qed.

(** ** C8: the center of a rotation *)

Example rotate_glider_90 :
  rotate glider 90 None None
  = Ok [ mkCell (mkLocation 0 (-1)) alive; mkCell (mkLocation 0 0) alive;
         mkCell (mkLocation 0 1) alive;    mkCell (mkLocation (-1) 1) alive;
         mkCell (mkLocation (-2) 0) alive ].
Proof. reflexivity. Qed.

(** C8, at the failing inputs.  The location (1,0) rotated about the center
    (1,0) does not stay in place: the accepted value 90 sends it to the
    origin, and the accepted value 180 sends it to (0,-1).  In both
    cases the center is not added back after the turn, and the case of
    180 does not use the center at all. *)
Theorem rotateLocation_moves_center :
  RotationValue 90 /\ RotationValue 180 /\
  rotateLocation (mkLocation 1 0)
                 (mkRotation clockwise 90 (mkLocation 1 0))
  = Ok origin /\
  rotateLocation (mkLocation 1 0)
                 (mkRotation clockwise 180 (mkLocation 1 0))
  = Ok (mkLocation 0 (-1)) /\
  rotateLocation (mkLocation 1 0)
                 (mkRotation clockwise 90 (mkLocation 1 0))
  <> Ok (mkLocation 1 0) /\
  rotateLocation (mkLocation 1 0)
                 (mkRotation clockwise 180 (mkLocation 1 0))
  <> Ok (mkLocation 1 0).
Proof.
  split; [unfold RotationValue; tauto|].
  split; [unfold RotationValue; tauto|].
  split; [reflexivity|]. split; [reflexivity|].
  split; vm_compute; discriminate.
Qed.

(** ** C9: mirroring *)

Example mirror_glider_x :
  map location (mirror glider AxisX (Some (mkLocation 3 4)))
  = [ mkLocation (-1) 0; mkLocation 0 0; mkLocation 1 0; mkLocation 1 (-1);
      mkLocation 0 (-2) ].
Proof. reflexivity. Qed.

(** C9.  Whatever the center argument, [mirror(p, "x")] sends each cell of
    [p()] from (x, y) to (x, -y), and [mirror(p, "y")] sends it from
    (x, y) to (-x, y); the state is kept. *)
Theorem mirror_reflects (pattern : Pattern) (c : option Location) :
  mirror pattern AxisX c
  = map (fun cell =>
           {| location := {| x := x (location cell);
                             y := - y (location cell) |};
              state := state cell |})
        (pattern None) /\
  mirror pattern AxisY c
  = map (fun cell =>
           {| location := {| x := - x (location cell);
                             y := y (location cell) |};
              state := state cell |})
        (pattern None).
Proof.
  unfold mirror. split; apply map_ext; intros cell; do 2 f_equal; lia.
Qed.

(** ** C10: de-duplication *)

Example uniqueCells_keeps_last :
  uniqueCells [ mkCell origin alive; mkCell (mkLocation 1 0) dead;
                mkCell origin dead ]
  = [ mkCell origin dead; mkCell (mkLocation 1 0) dead ].
Proof. reflexivity. Qed.

(** C10.  [uniqueCells] returns a list with at most one cell per location
    and with the same locations as its input, and each cell it keeps is
    the last cell of the input at its location. *)
Theorem uniqueCells_spec (cs : list Cell) :
  NoDup (map location (uniqueCells cs)) /\
  (forall l, In l (map location (uniqueCells cs)) <-> In l (map location cs)) /\
  (forall c, In c (uniqueCells cs) ->
     exists pre post,
       cs = pre ++ c :: post /\
       forall c', In c' post -> location c' <> location c).
Proof.
  split; [apply uniqueCells_NoDup|]. split.
  - apply uniqueCells_locations.
  - apply uniqueCells_last.
Qed.

(** * Further properties of the code *)

(** ** Sums and differences that are exact *)

Lemma roundDouble_exact (z : Z) : Z.abs z <= twoTo53 -> roundDouble z = z.
Proof.
  intros Hz. unfold roundDouble.
  by destruct (Z.leb_spec (Z.abs z) twoTo53); [|lia].
Qed.

(** Rounding never brings a magnitude above 2^53 below it. *)
Lemma roundDouble_large (z : Z) :
  twoTo53 < Z.abs z -> twoTo53 <= Z.abs (roundDouble z).
Proof.
  intros Hz. unfold roundDouble.
  destruct (Z.leb_spec (Z.abs z) twoTo53) as [|_]; [lia|].
  set (a := Z.abs z) in *.
  assert (Hlog : 53 <= Z.log2 a).
  { change 53 with (Z.log2 twoTo53). apply Z.log2_le_mono. lia. }
  set (k := Z.log2 a - 52).
  assert (Hk : 1 <= k) by (unfold k; lia).
  assert (Hpow : 2 ^ 52 * 2 ^ k <= a).
  { rewrite <- Z.pow_add_r by lia.
    replace (52 + k) with (Z.log2 a) by (unfold k; lia).
    apply Z.log2_spec. unfold twoTo53 in Hz. lia. }
  assert (H2k : 2 <= 2 ^ k).
  { change 2 with (2 ^ 1) at 1. apply Z.pow_le_mono_r; lia. }
  assert (Hq : 2 ^ 52 <= a / 2 ^ k).
  { apply Z.div_le_lower_bound; lia. }
  set (q := a / 2 ^ k) in *.
  set (m := if a mod 2 ^ k <? 2 ^ (k - 1) then q
            else if 2 ^ (k - 1) <? a mod 2 ^ k then q + 1
            else if Z.even q then q else q + 1).
  assert (Hm : q <= m).
  { unfold m. repeat destruct (_ <? _); try destruct (Z.even q); lia. }
  assert (Hprod : twoTo53 <= m * 2 ^ k).
  { change twoTo53 with (2 ^ 52 * 2). nia. }
  rewrite Z.abs_mul.
  assert (Z.abs (Z.sgn z) = 1)
    by (unfold a in Hz; unfold twoTo53 in Hz; lia).
  lia.
Qed.

Lemma jsAdd_exact (a b : Z) : Z.abs (a + b) <= twoTo53 -> a +# b = a + b.
Proof.
  intros H. unfold jsAdd.
  destruct (Z.eqb_spec b 0); [lia|]. destruct (Z.eqb_spec a 0); [lia|].
  by apply roundDouble_exact.
Qed.

Lemma jsSub_exact (a b : Z) : Z.abs (a - b) <= twoTo53 -> a -# b = a - b.
Proof.
  intros H. unfold jsSub. destruct (Z.eqb_spec b 0); [lia|].
  by apply roundDouble_exact.
Qed.

Lemma jsSub_0_r (a : Z) : a -# 0 = a.
Proof. reflexivity. Qed.

(** A sum or a difference that comes out as a safe integer is exact. *)
Lemma jsAdd_safe (a b : Z) : safeInteger (a +# b) -> a +# b = a + b.
Proof.
  unfold safeInteger. intros Hs.
  destruct (Z_le_gt_dec (Z.abs (a + b)) twoTo53) as [Hz|Hz];
    [by apply jsAdd_exact|].
  revert Hs. unfold jsAdd.
  destruct (Z.eqb_spec b 0); [lia|]. destruct (Z.eqb_spec a 0); [lia|].
  pose proof (roundDouble_large (a + b)). lia.
Qed.

Lemma jsSub_safe (a b : Z) : safeInteger (a -# b) -> a -# b = a - b.
Proof.
  unfold safeInteger. intros Hs.
  destruct (Z_le_gt_dec (Z.abs (a - b)) twoTo53) as [Hz|Hz];
    [by apply jsSub_exact|].
  revert Hs. unfold jsSub. destruct (Z.eqb_spec b 0); [lia|].
  pose proof (roundDouble_large (a - b)). lia.
Qed.

(** From 2^53 on the sums round: a location there is its own neighbour,
    the generation no longer advances, and two locations one apart can be
    turned onto the same location. *)
Example neighborLocations_rounded :
  In (mkLocation twoTo53 0) (neighborLocations (mkLocation twoTo53 0)).
Proof. vm_compute. tauto. Qed.

Example tick_time_rounded : time (tick (mkWorld twoTo53 [])) = twoTo53.
Proof. reflexivity. Qed.

Example rotateLocation_rounded :
  rotateLocation (mkLocation 0 twoTo53)
                 (mkRotation clockwise 90 (mkLocation 0 (-1)))
  = rotateLocation (mkLocation 0 (twoTo53 - 1))
                   (mkRotation clockwise 90 (mkLocation 0 (-1))).
Proof. reflexivity. Qed.

(** ** The Moore neighbourhood *)

(** Around a location within 2^53 - 1 the eight sums are exact. *)
Lemma neighborLocations_exact (l : Location) :
  withinBound (twoTo53 - 1) l ->
  neighborLocations l
  = [ {| x := x l - 1; y := y l - 1 |}; {| x := x l;     y := y l - 1 |};
      {| x := x l + 1; y := y l - 1 |}; {| x := x l - 1; y := y l |};
      {| x := x l + 1; y := y l |};     {| x := x l - 1; y := y l + 1 |};
      {| x := x l;     y := y l + 1 |}; {| x := x l + 1; y := y l + 1 |} ].
Proof.
  intros [Hx Hy]. unfold neighborLocations.
  rewrite !jsAdd_exact, !jsSub_exact by lia. reflexivity.
Qed.

Lemma safeLocation_withinBound (l : Location) :
  safeLocation l <-> withinBound (twoTo53 - 1) l.
Proof. unfold safeLocation, safeInteger, withinBound. lia. Qed.

(** A safe location among the neighbours of a location has that location
    among its own neighbours. *)
Lemma neighborLocations_sym (s l : Location) :
  safeLocation s -> In s (neighborLocations l) -> In l (neighborLocations s).
Proof.
  intros Hs. pose proof Hs as [Hsx Hsy].
  rewrite (neighborLocations_exact s)
    by (by apply safeLocation_withinBound).
  destruct l as [lx ly], s as [sx sy]. unfold neighborLocations. simpl in *.
  intros H; repeat (destruct H as [H|H]; [|]); try done;
    injection H as Hx Hy;
    try (rewrite <- Hx in Hsx; apply jsAdd_safe in Hsx as Hx');
    try (rewrite <- Hx in Hsx; apply jsSub_safe in Hsx as Hx');
    try (rewrite <- Hy in Hsy; apply jsAdd_safe in Hsy as Hy');
    try (rewrite <- Hy in Hsy; apply jsSub_safe in Hsy as Hy').
  all: repeat match goal with
       | |- ?P \/ ?Q => first [ left; f_equal; lia | right ]
       end.
Qed.

(** A neighbour of a safe location has that location among its own
    neighbours. *)
Lemma neighborLocations_sym_from (s l : Location) :
  safeLocation s -> In l (neighborLocations s) -> In s (neighborLocations l).
Proof.
  intros Hs. pose proof Hs as [Hsx Hsy].
  rewrite (neighborLocations_exact s)
    by (by apply safeLocation_withinBound).
  destruct s as [sx sy]. unfold safeInteger in *. simpl in *.
  intros H; repeat (destruct H as [<-|H]; [|]); try done;
    unfold neighborLocations; simpl.
  all: repeat match goal with
       | |- ?P \/ ?Q =>
           first [ left; apply (f_equal2 mkLocation);
                   first [ reflexivity
                         | rewrite jsAdd_exact by lia; lia
                         | rewrite jsSub_exact by lia; lia ]
                 | right ]
       end.
Qed.

(** X1.  Around a location whose coordinates are safe integers, the
    neighbourhood consists of eight distinct locations, none of them the
    location itself, and another location is among them exactly when it
    has the location among its own neighbours. *)
Theorem neighborLocations_moore (l : Location) :
  safeLocation l ->
  length (neighborLocations l) = 8%nat /\
  NoDup (neighborLocations l) /\
  ~ In l (neighborLocations l) /\
  (forall l', In l' (neighborLocations l) <-> In l (neighborLocations l')).
Proof.
  intros Hs. split; [reflexivity|].
  rewrite (neighborLocations_exact l) by (by apply safeLocation_withinBound).
  split; [|split].
  - destruct l as [lx ly]. simpl.
    repeat constructor; simpl; intros H;
      repeat (destruct H as [H|H]; [injection H; lia|]); done.
  - destruct l as [lx ly]. simpl. intros H.
    repeat (destruct H as [H|H]; [injection H; lia|]). done.
  - intros l'.
    rewrite <- (neighborLocations_exact l)
      by (by apply safeLocation_withinBound).
    split; [by apply neighborLocations_sym_from
           | by apply neighborLocations_sym].
Qed.

Lemma neighborLocations_moore_witness :
  length (neighborLocations (mkLocation 3 (-4))) = 8%nat /\
  NoDup (neighborLocations (mkLocation 3 (-4))) /\
  ~ In (mkLocation 3 (-4)) (neighborLocations (mkLocation 3 (-4))) /\
  (forall l', In l' (neighborLocations (mkLocation 3 (-4)))
              <-> In (mkLocation 3 (-4)) (neighborLocations l')).
Proof.
  apply (neighborLocations_moore (mkLocation 3 (-4))).
  unfold safeLocation, safeInteger, twoTo53. simpl. lia.
Defined.

(** X2.  Each of the eight neighbours of a cell is counted either as living
    or as dead: the two counts add up to eight, so a cell has at most eight
    living neighbours. *)
Theorem neighbors_living_dead_count (w : World) (c : Cell) :
  (length (getLivingCellNeighbors w c) + length (getDeadCellNeighbors w c)
   = 8)%nat /\
  (length (getLivingCellNeighbors w c) <= 8)%nat.
Proof.
  assert (Hsum : forall cs : list Cell,
             (length (filter isAlive cs) + length (filter isDead cs)
              = length cs)%nat).
  { induction cs as [|c0 cs IH]; simpl; [done|]. unfold isDead at 1.
    destruct (isAlive c0); simpl; lia. }
  unfold getLivingCellNeighbors, getDeadCellNeighbors.
  pose proof (Hsum (getCellNeighbors w c)) as H.
  assert (Hlen : length (getCellNeighbors w c) = 8%nat)
    by (unfold getCellNeighbors; by rewrite length_map).
  lia.
Qed.

(** ** Queries on a world *)

Lemma getCell_alive_In (w : World) (l : Location) :
  isAlive (getCell w l) = true -> In (getCell w l) (cells w).
Proof.
  unfold getCell. destruct (find _ (cells w)) as [c|] eqn:Hf.
  - intros _. by apply find_at_Some in Hf as [Hin _].
  - discriminate.
Qed.

(** X3.  A location that [getCell] reports alive holds a living cell of
    the world; in a world with at most one cell per location the converse
    holds too, so the query is alive exactly at the locations of the
    living cells. *)
Theorem getCell_alive_iff (w : World) (l : Location) :
  NoDup (map location (cells w)) ->
  isAlive (getCell w l) = true <-> In l (livingLocations w).
Proof.
  intros Hnd. unfold livingLocations, getLivingCells. split.
  - intros Halive. rewrite <- (getCell_location w l). apply in_map.
    apply filter_In. split; [by apply getCell_alive_In | done].
  - intros (c & <- & [Hin Halive]%filter_In)%in_map_iff.
    by rewrite getCell_member.
Qed.

Lemma getCell_alive_iff_witness :
  isAlive (getCell (mkWorld 0 (glider None)) (mkLocation 1 1)) = true
  <-> In (mkLocation 1 1) (livingLocations (mkWorld 0 (glider None))).
Proof.
  apply (getCell_alive_iff (mkWorld 0 (glider None)) (mkLocation 1 1)).
  simpl. repeat constructor; simpl; intuition discriminate.
Defined.

(** ** The cells of the next world *)

Lemma uniqueCells_length (cs : list Cell) :
  (length (uniqueCells cs) <= length cs)%nat.
Proof.
  rewrite <- (length_map location (uniqueCells cs)),
          <- (length_map location cs).
  apply NoDup_incl_length; [apply uniqueCells_NoDup|].
  intros l. apply uniqueCells_locations.
Qed.

Lemma getDeadCellNeighbors_length (w : World) (c : Cell) :
  (length (getDeadCellNeighbors w c) <= 8)%nat.
Proof.
  unfold getDeadCellNeighbors.
  etransitivity; [apply filter_length_le|].
  unfold getCellNeighbors. by rewrite length_map.
Qed.

Lemma concat_length_bound {A : Type} (ls : list (list A)) (n : nat) :
  (forall l, In l ls -> (length l <= n)%nat) ->
  (length (concat ls) <= n * length ls)%nat.
Proof.
  induction ls as [|l ls IH]; simpl; intros Hn; [lia|].
  rewrite length_app. pose proof (Hn l (or_introl eq_refl)).
  assert (length (concat ls) <= n * length ls)%nat by (apply IH; auto).
  lia.
Qed.

(** X4.  Every cell of the next world sits on a living cell of the current
    world or on one of its neighbours: a tick never lists a cell
    anywhere else. *)
Theorem tick_cells_near_living (w : World) (c : Cell) :
  In c (cells (tick w)) ->
  exists c0, In c0 (cells w) /\ isAlive c0 = true /\
             (location c = location c0 \/
              In (location c) (neighborLocations (location c0))).
Proof.
  unfold tick; simpl. intros (c1 & <- & Hin)%in_map_iff.
  rewrite getNextTickCell_location. apply in_app_iff in Hin as [Hin|Hin].
  - apply filter_In in Hin as [Hin Halive]. exists c1. auto.
  - apply deadNeighbors_In in Hin as (c0 & Hc0 & Halive & Hl & _).
    exists c0. auto.
Qed.

Lemma tick_cells_near_living_witness :
  exists c0, In c0 (cells (mkWorld 0 (blinker2 None))) /\
             isAlive c0 = true /\
             (location (mkCell (mkLocation 0 1) alive) = location c0 \/
              In (location (mkCell (mkLocation 0 1) alive))
                 (neighborLocations (location c0))).
Proof.
  apply (tick_cells_near_living (mkWorld 0 (blinker2 None))
           (mkCell (mkLocation 0 1) alive)).
  vm_compute. tauto.
Defined.

(** X5.  The next world lists at most nine cells for each living cell of
    the current world: the cell itself and its eight neighbours. *)
Theorem tick_cells_length (w : World) :
  (length (cells (tick w)) <= 9 * length (getLivingCells w))%nat.
Proof.
  unfold tick; simpl. rewrite length_map, length_app.
  unfold getDeadNeighborsOfLivingCells.
  pose proof (uniqueCells_length
    (fold_left (fun acc curr => acc ++ curr)
       (map (fun c => getDeadCellNeighbors w c) (filter isAlive (cells w)))
       [])) as Hu.
  rewrite fold_left_app_concat in Hu. simpl in Hu.
  rewrite fold_left_app_concat. simpl.
  pose proof (concat_length_bound
    (map (fun c => getDeadCellNeighbors w c) (filter isAlive (cells w))) 8)
    as Hc.
  rewrite length_map in Hc. unfold getLivingCells.
  assert (length (concat (map (fun c => getDeadCellNeighbors w c)
                              (filter isAlive (cells w))))
          <= 8 * length (filter isAlive (cells w)))%nat.
  { apply Hc. intros l (c & <- & _)%in_map_iff.
    apply getDeadCellNeighbors_length. }
  lia.
Qed.

(** X6.  A world without a living cell, whatever dead cells it lists, is
    followed by a world that lists no cell at all; its generation is one
    more, as long as the generation is a safe integer. *)
Theorem tick_no_living (w : World) :
  (forall c, In c (cells w) -> isAlive c = false) ->
  cells (tick w) = [] /\
  (safeInteger (time w) -> time (tick w) = time w + 1).
Proof.
  intros Hdead. split.
  - assert (Hnone : filter isAlive (cells w) = []).
    { induction (cells w) as [|c cs IH]; simpl; [done|].
      rewrite (Hdead c (or_introl eq_refl)). apply IH.
      intros c' Hc'. apply Hdead. by right. }
    unfold tick, getLivingCells, getDeadNeighborsOfLivingCells; simpl.
    by rewrite Hnone.
  - unfold safeInteger. intros Ht. unfold tick; simpl.
    apply jsAdd_exact. lia.
Qed.

Lemma tick_no_living_witness :
  cells (tick (mkWorld 7 [mkCell origin dead; mkCell (mkLocation 3 4) dead]))
  = [] /\
  (safeInteger
     (time (mkWorld 7 [mkCell origin dead; mkCell (mkLocation 3 4) dead])) ->
   time (tick (mkWorld 7 [mkCell origin dead; mkCell (mkLocation 3 4) dead]))
   = time (mkWorld 7 [mkCell origin dead; mkCell (mkLocation 3 4) dead]) + 1).
Proof.
  apply (tick_no_living
           (mkWorld 7 [mkCell origin dead; mkCell (mkLocation 3 4) dead])).
  simpl. intros c [<-|[<-|[]]]; reflexivity.
Defined.

(** ** The rules of the game *)

Lemma getNextTickCell_isAlive (w : World) (c : Cell) :
  isAlive (getNextTickCell w c)
  = rulesNextAlive (isAlive c) (length (getLivingCellNeighbors w c)).
Proof.
  unfold getNextTickCell, rulesNextAlive.
  destruct (isAlive c) eqn:Hc;
    destruct (length (getLivingCellNeighbors w c)) as [|[|[|[|n]]]];
    simpl; try done.
Qed.

Lemma tick_locations_NoDup (w : World) :
  NoDup (map location (cells w)) -> NoDup (map location (cells (tick w))).
Proof.
  intros Hnd. rewrite tick_locations. apply NoDup_app.
  - by apply filter_NoDup_locations.
  - apply uniqueCells_NoDup.
  - intros l (c1 & <- & [Hin Halive]%filter_In)%in_map_iff
             (c2 & Hloc & Hdead)%in_map_iff.
    apply deadNeighbors_In in Hdead as (_ & _ & _ & _ & Hc2 & Hdead).
    rewrite Hloc, (getCell_member w c1 Hnd Hin) in Hc2. congruence.
Qed.

(** Each cell of the next world is the successor of the cell the query
    gives at its location. *)
Lemma tick_cell_successor (w : World) (c : Cell) :
  NoDup (map location (cells w)) -> In c (cells (tick w)) ->
  c = getNextTickCell w (getCell w (location c)).
Proof.
  intros Hnd. unfold tick; simpl. intros (c1 & <- & Hin)%in_map_iff.
  rewrite getNextTickCell_location. apply in_app_iff in Hin as [Hin|Hin].
  - apply filter_In in Hin as [Hin _]. by rewrite getCell_member.
  - apply deadNeighbors_In in Hin as (_ & _ & _ & _ & Hc1 & _).
    by rewrite <- Hc1.
Qed.

(** A dead location with a living neighbour is among the dead candidates,
    when the living cells are at safe locations. *)
Lemma living_neighbor_candidate (w : World) (l : Location) :
  (forall c, In c (cells w) -> isAlive c = true -> safeLocation (location c)) ->
  isAlive (getCell w l) = false ->
  getLivingCellNeighbors w (getCell w l) <> [] ->
  In (getCell w l) (getDeadNeighborsOfLivingCells w).
Proof.
  intros Hsafe Hdead Hne.
  destruct (getLivingCellNeighbors w (getCell w l)) as [|c0 cs] eqn:Hl;
    [done|].
  assert (Hc0 : In c0 (getLivingCellNeighbors w (getCell w l)))
    by (rewrite Hl; by left).
  unfold getLivingCellNeighbors, getCellNeighbors in Hc0.
  apply filter_In in Hc0 as [Hc0 Halive].
  apply in_map_iff in Hc0 as (l' & <- & Hl').
  rewrite getCell_location in Hl'.
  apply (deadNeighbors_candidate w (getCell w l')); auto.
  - by apply getCell_alive_In.
  - rewrite getCell_location. apply neighborLocations_sym; [|done].
    rewrite <- (getCell_location w l').
    apply Hsafe; [by apply getCell_alive_In | done].
Qed.

(** X7.  In a world with at most one cell per location whose living cells
    are at safe-integer coordinates, the next world answers the query at
    every location of the plane as the four rules say: alive after the
    tick exactly when the location was alive with two or three living
    neighbours, or dead with exactly three; and the living cells of the
    next world are at exactly those locations. *)
Theorem tick_follows_rules (w : World) (l : Location) :
  NoDup (map location (cells w)) ->
  (forall c, In c (cells w) -> isAlive c = true -> safeLocation (location c)) ->
  isAlive (getCell (tick w) l)
  = rulesNextAlive (isAlive (getCell w l)) (numLivingNeighborsAt w l) /\
  (In l (livingLocations (tick w)) <->
   rulesNextAlive (isAlive (getCell w l)) (numLivingNeighborsAt w l) = true).
Proof.
  intros Hnd Hsafe.
  assert (Hq : isAlive (getCell (tick w) l)
               = rulesNextAlive (isAlive (getCell w l))
                                (numLivingNeighborsAt w l)).
  { unfold numLivingNeighborsAt.
    rewrite <- getNextTickCell_isAlive.
    unfold getCell at 1.
    destruct (find _ (cells (tick w))) as [c|] eqn:Hf.
    - apply find_at_Some in Hf as [Hin <-].
      by rewrite <- (tick_cell_successor w c Hnd Hin).
    - apply find_at_None in Hf. rewrite tick_locations in Hf.
      rewrite in_app_iff in Hf.
      destruct (isAlive (getCell w l)) eqn:Halive.
      + destruct Hf. left. rewrite <- (getCell_location w l) at 1.
        apply in_map, filter_In. split; [by apply getCell_alive_In | done].
      + destruct (getLivingCellNeighbors w (getCell w l)) as [|c0 cs] eqn:Hl.
        * unfold getNextTickCell. by rewrite Halive, Hl.
        * destruct Hf. right. rewrite <- (getCell_location w l) at 1.
          apply in_map, living_neighbor_candidate; [done|done|].
          by rewrite Hl. }
  split; [exact Hq|]. rewrite <- Hq.
  unfold livingLocations, getLivingCells. split.
  - intros (c & <- & [Hin Halive]%filter_In)%in_map_iff.
    rewrite getCell_member; [done | by apply tick_locations_NoDup | done].
  - intros Halive. rewrite <- (getCell_location (tick w) l) at 1.
    apply in_map, filter_In. split; [by apply getCell_alive_In | done].
Qed.

Lemma tick_follows_rules_witness :
  isAlive (getCell (tick (mkWorld 0 (glider None))) (mkLocation 0 1))
  = rulesNextAlive
      (isAlive (getCell (mkWorld 0 (glider None)) (mkLocation 0 1)))
      (numLivingNeighborsAt (mkWorld 0 (glider None)) (mkLocation 0 1)) /\
  (In (mkLocation 0 1) (livingLocations (tick (mkWorld 0 (glider None)))) <->
   rulesNextAlive
     (isAlive (getCell (mkWorld 0 (glider None)) (mkLocation 0 1)))
     (numLivingNeighborsAt (mkWorld 0 (glider None)) (mkLocation 0 1))
   = true).
Proof.
  apply (tick_follows_rules (mkWorld 0 (glider None)) (mkLocation 0 1)).
  - vm_compute. repeat constructor; simpl; intuition discriminate.
  - intros c Hc _. vm_compute in Hc.
    destruct Hc as [<-|[<-|[<-|[<-|[<-|[]]]]]];
      unfold safeLocation, safeInteger, twoTo53; simpl; lia.
Defined.

(** ** Moving a world across the plane *)

Lemma shiftLocation_inj (d l1 l2 : Location) :
  shiftLocation d l1 = shiftLocation d l2 -> l1 = l2.
Proof.
  destruct l1, l2. unfold shiftLocation; simpl. intros [= H1 H2].
  f_equal; lia.
Qed.

Lemma isCellAtLocation_shift (d : Location) (c : Cell) (l : Location) :
  isCellAtLocation (shiftCell d c) (shiftLocation d l) = isCellAtLocation c l.
Proof.
  destruct (isCellAtLocation c l) eqn:Hat.
  - apply isCellAtLocation_true in Hat. apply isCellAtLocation_true.
    simpl. by rewrite Hat.
  - apply isCellAtLocation_false in Hat. apply isCellAtLocation_false.
    simpl. intros Heq%shiftLocation_inj. done.
Qed.

Lemma find_map_comm {A B : Type} (f : A -> B) (p : B -> bool) (xs : list A) :
  find p (map f xs) = option_map f (find (fun a => p (f a)) xs).
Proof.
  induction xs as [|a xs IH]; simpl; [done|]. by destruct (p (f a)).
Qed.

Lemma filter_map_comm {A B : Type} (f : A -> B) (p : B -> bool)
    (xs : list A) :
  filter p (map f xs) = map f (filter (fun a => p (f a)) xs).
Proof.
  induction xs as [|a xs IH]; simpl; [done|].
  destruct (p (f a)); simpl; by rewrite IH.
Qed.

Lemma find_pointwise {A : Type} (p q : A -> bool) (xs : list A) :
  (forall a, p a = q a) -> find p xs = find q xs.
Proof.
  intros Hpq. induction xs as [|a xs IH]; simpl; [done|].
  by rewrite Hpq, IH.
Qed.

Lemma getCell_shift (d : Location) (w : World) (l : Location) :
  getCell (shiftWorld d w) (shiftLocation d l) = shiftCell d (getCell w l).
Proof.
  unfold getCell, shiftWorld; simpl. rewrite find_map_comm.
  erewrite find_pointwise; [|intros c; apply isCellAtLocation_shift].
  by destruct (find _ (cells w)).
Qed.

Lemma neighborLocations_shift (d l : Location) :
  withinBound (twoTo53 - 1) l ->
  withinBound (twoTo53 - 1) (shiftLocation d l) ->
  neighborLocations (shiftLocation d l)
  = map (shiftLocation d) (neighborLocations l).
Proof.
  intros Hl Hd. rewrite !neighborLocations_exact by done.
  unfold shiftLocation; simpl.
  repeat (apply (f_equal2 cons); [apply (f_equal2 mkLocation); lia|]).
  reflexivity.
Qed.

(** A neighbour of a location is at most one further away, and so is
    its image under a shift. *)
Lemma neighborLocations_bound (b : Z) (d p n : Location) :
  b <= twoTo53 - 1 ->
  withinBound b p -> withinBound b (shiftLocation d p) ->
  In n (neighborLocations p) ->
  withinBound (b + 1) n /\ withinBound (b + 1) (shiftLocation d n).
Proof.
  intros Hb Hp Hd. rewrite neighborLocations_exact
    by (unfold withinBound in *; lia).
  unfold withinBound, shiftLocation in *. simpl in *.
  intros H; repeat (destruct H as [<-|H]; [simpl; lia|]). done.
Qed.

Section Shifted.
Variables (d : Location) (w : World) (c : Cell).
Hypothesis Hc : withinBound (twoTo53 - 1) (location c).
Hypothesis Hd : withinBound (twoTo53 - 1) (shiftLocation d (location c)).

Lemma getCellNeighbors_shift :
  getCellNeighbors (shiftWorld d w) (shiftCell d c)
  = map (shiftCell d) (getCellNeighbors w c).
Proof.
  unfold getCellNeighbors. simpl location.
  rewrite neighborLocations_shift, !map_map by done. apply map_ext.
  intros l. apply getCell_shift.
Qed.

Lemma getLivingCellNeighbors_shift :
  getLivingCellNeighbors (shiftWorld d w) (shiftCell d c)
  = map (shiftCell d) (getLivingCellNeighbors w c).
Proof.
  unfold getLivingCellNeighbors.
  by rewrite getCellNeighbors_shift, filter_map_comm.
Qed.

Lemma getDeadCellNeighbors_shift :
  getDeadCellNeighbors (shiftWorld d w) (shiftCell d c)
  = map (shiftCell d) (getDeadCellNeighbors w c).
Proof.
  unfold getDeadCellNeighbors.
  by rewrite getCellNeighbors_shift, filter_map_comm.
Qed.

Lemma getNextTickCell_shift :
  getNextTickCell (shiftWorld d w) (shiftCell d c)
  = shiftCell d (getNextTickCell w c).
Proof.
  unfold getNextTickCell.
  rewrite getLivingCellNeighbors_shift, length_map.
  change (isAlive (shiftCell d c)) with (isAlive c).
  destruct (isAlive c);
    destruct (length (getLivingCellNeighbors w c)) as [|[|[|[|n]]]]; done.
Qed.
End Shifted.

(** Moving the cells moves the entries of the index, key and value. *)
Lemma mapSet_shift (d : Location) (c : Cell) (m : JsMap Cell) :
  (forall k v, In (k, v) m -> k = locationKey (location v)) ->
  mapSet (locationKey (location (shiftCell d c))) (shiftCell d c)
    (map (fun kv => (locationKey (location (shiftCell d (snd kv))),
                     shiftCell d (snd kv))) m)
  = map (fun kv => (locationKey (location (shiftCell d (snd kv))),
                    shiftCell d (snd kv)))
        (mapSet (locationKey (location c)) c m).
Proof.
  induction m as [|[k0 v0] m IH]; intros Hkey; simpl; [done|].
  rewrite (Hkey k0 v0 (or_introl eq_refl)).
  destruct (String.eqb_spec (locationKey (location v0))
                            (locationKey (location c))) as [Heq|Hne].
  - apply locationKey_inj in Heq.
    rewrite Heq, String.eqb_refl. reflexivity.
  - destruct (String.eqb_spec
                (locationKey (shiftLocation d (location v0)))
                (locationKey (shiftLocation d (location c)))) as [Heq|_].
    + apply locationKey_inj, shiftLocation_inj in Heq. by rewrite Heq in Hne.
    + simpl. f_equal. apply IH. intros k v Hin. apply Hkey. by right.
Qed.

Lemma cellIndex_shift (d : Location) (cs : list Cell) :
  cellIndex (map (shiftCell d) cs)
  = map (fun kv => (locationKey (location (shiftCell d (snd kv))),
                    shiftCell d (snd kv)))
        (cellIndex cs).
Proof.
  induction cs as [|c cs IH] using rev_ind; [done|].
  rewrite map_app. simpl. rewrite !cellIndex_snoc, IH.
  apply mapSet_shift. apply cellIndex_invariant.
Qed.

Lemma uniqueCells_shift (d : Location) (cs : list Cell) :
  uniqueCells (map (shiftCell d) cs) = map (shiftCell d) (uniqueCells cs).
Proof. by rewrite !uniqueCells_values, cellIndex_shift, !map_map. Qed.

Lemma getLivingCells_shift (d : Location) (w : World) :
  getLivingCells (shiftWorld d w) = map (shiftCell d) (getLivingCells w).
Proof.
  unfold getLivingCells, shiftWorld; simpl cells.
  by rewrite filter_map_comm.
Qed.

Lemma withinBound_weaken (b b' : Z) (l : Location) :
  b <= b' -> withinBound b l -> withinBound b' l.
Proof. unfold withinBound. lia. Qed.

Lemma getDeadNeighborsOfLivingCells_shift (d : Location) (w : World) :
  shiftExact d w ->
  getDeadNeighborsOfLivingCells (shiftWorld d w)
  = map (shiftCell d) (getDeadNeighborsOfLivingCells w).
Proof.
  intros Hw. unfold getDeadNeighborsOfLivingCells.
  rewrite !fold_left_app_concat. simpl app. simpl cells.
  rewrite filter_map_comm.
  change (fun a => isAlive (shiftCell d a)) with isAlive.
  rewrite map_map, <- uniqueCells_shift, concat_map, map_map.
  do 2 f_equal. apply map_ext_in. intros c [Hin Halive]%filter_In.
  destruct (Hw c Hin Halive) as [H1 H2].
  apply getDeadCellNeighbors_shift;
    eapply withinBound_weaken; try eassumption; lia.
Qed.

Lemma tick_shift_cells (d : Location) (w : World) :
  shiftExact d w ->
  cells (tick (shiftWorld d w)) = map (shiftCell d) (cells (tick w)).
Proof.
  intros Hw. unfold tick. simpl cells.
  rewrite getLivingCells_shift, getDeadNeighborsOfLivingCells_shift by done.
  rewrite <- map_app, !map_map. apply map_ext_in.
  intros c [Hin|Hin]%in_app_iff.
  - apply filter_In in Hin as [Hin Halive].
    destruct (Hw c Hin Halive) as [H1 H2].
    apply getNextTickCell_shift;
      eapply withinBound_weaken; try eassumption; lia.
  - apply deadNeighbors_In in Hin as (c0 & Hc0 & Halive & Hl & _).
    destruct (Hw c0 Hc0 Halive) as [H1 H2].
    destruct (neighborLocations_bound (twoTo53 - 2) d (location c0)
                (location c)) as [H3 H4]; try done; try lia.
    replace (twoTo53 - 2 + 1) with (twoTo53 - 1) in H3, H4 by lia.
    by apply getNextTickCell_shift.
Qed.

Lemma tick_shift (d : Location) (w : World) :
  shiftExact d w -> tick (shiftWorld d w) = shiftWorld d (tick w).
Proof.
  intros Hw.
  change (tick (shiftWorld d w))
    with (mkWorld (time w +# 1) (cells (tick (shiftWorld d w)))).
  change (shiftWorld d (tick w))
    with (mkWorld (time w +# 1) (map (shiftCell d) (cells (tick w)))).
  by rewrite tick_shift_cells.
Qed.

Lemma livingLocations_shift (d : Location) (w : World) :
  livingLocations (shiftWorld d w)
  = map (shiftLocation d) (livingLocations w).
Proof.
  unfold livingLocations. rewrite getLivingCells_shift.
  by rewrite !map_map.
Qed.

(** X8.  The tick does not depend on where the world lies, as long as the
    sums stay exact: when the living cells and their images under the
    shift have coordinates of magnitude at most 2^53 - 2, moving every
    cell by the offset and then ticking gives, cell for cell and in the
    same order, the world obtained by ticking first and moving then. *)
Theorem tick_commutes_with_shift (d : Location) (w : World) :
  (forall c, In c (cells w) -> isAlive c = true ->
     withinBound (twoTo53 - 2) (location c) /\
     withinBound (twoTo53 - 2) (shiftLocation d (location c))) ->
  tick (shiftWorld d w) = shiftWorld d (tick w) /\
  livingLocations (tick (shiftWorld d w))
  = map (shiftLocation d) (livingLocations (tick w)).
Proof.
  intros Hw. split; [by apply tick_shift|].
  rewrite tick_shift by done. apply livingLocations_shift.
Qed.

Lemma tick_commutes_with_shift_witness :
  tick (shiftWorld (mkLocation 10 (-3)) (mkWorld 0 (blinker2 None)))
  = shiftWorld (mkLocation 10 (-3)) (tick (mkWorld 0 (blinker2 None))) /\
  livingLocations
    (tick (shiftWorld (mkLocation 10 (-3)) (mkWorld 0 (blinker2 None))))
  = map (shiftLocation (mkLocation 10 (-3)))
        (livingLocations (tick (mkWorld 0 (blinker2 None)))).
Proof.
  apply (tick_commutes_with_shift (mkLocation 10 (-3))
           (mkWorld 0 (blinker2 None))).
  intros c Hc _. vm_compute in Hc.
  destruct Hc as [<-|[<-|[<-|[]]]];
    unfold withinBound, twoTo53; simpl; lia.
Defined.

(** A small world shifted by an offset well within the safe integers
    leaves room for exact steps. *)
Lemma shiftExact_small (d : Location) (w : World) :
  withinBound (twoTo53 - 8) d ->
  forallb (fun c => negb (isAlive c) || inBox 5 (location c)) (cells w)
  = true ->
  shiftExact d w.
Proof.
  intros Hd Hall c Hin Halive.
  rewrite forallb_forall in Hall. specialize (Hall c Hin).
  rewrite Halive in Hall. simpl in Hall. unfold inBox in Hall.
  apply andb_true_iff in Hall as [Hx%Z.leb_le Hy%Z.leb_le].
  unfold withinBound, shiftLocation, twoTo53 in *. simpl. lia.
Qed.

Lemma glider_centered (c : Location) :
  withinBound (twoTo53 - 8) c ->
  glider (Some c) = map (shiftCell c) (glider None).
Proof.
  intros [Hx Hy]. unfold glider, shiftCell, shiftLocation; simpl.
  rewrite !jsAdd_exact, !jsSub_exact by lia.
  repeat (apply (f_equal2 cons);
          [apply (f_equal2 mkCell);
           [apply (f_equal2 mkLocation); lia | reflexivity]|]).
  reflexivity.
Qed.

(** X9.  The glider travels: centered anywhere within 2^53 - 8 of the
    origin in both coordinates, and whatever the generation it starts
    from, after four ticks the living cells are those of the glider
    centered one column further and one row lower. *)
Theorem glider_moves_after_4_ticks (c : Location) (t : Z) (l : Location) :
  withinBound (twoTo53 - 8) c ->
  In l (livingLocations
          (tick (tick (tick (tick (mkWorld t (glider (Some c))))))))
  <-> In l (map location
              (glider (Some {| x := x c + 1; y := y c - 1 |}))).
Proof.
  intros Hc.
  change (mkWorld t (glider (Some c)))
    with (mkWorld t (cells (mkWorld t (glider (Some c))))).
  simpl cells. rewrite glider_centered by done.
  change (mkWorld t (map (shiftCell c) (glider None)))
    with (shiftWorld c (mkWorld t (glider None))).
  rewrite (tick_shift c (mkWorld t (glider None)))
    by (by apply shiftExact_small).
  rewrite (tick_shift c (tick (mkWorld t (glider None))))
    by (by apply shiftExact_small).
  rewrite (tick_shift c (tick (tick (mkWorld t (glider None)))))
    by (by apply shiftExact_small).
  rewrite (tick_shift c (tick (tick (tick (mkWorld t (glider None))))))
    by (by apply shiftExact_small).
  rewrite livingLocations_shift.
  assert (Hfour :
    livingLocations (tick (tick (tick (tick (mkWorld t (glider None))))))
    = [ mkLocation 0 (-1); mkLocation 1 (-1); mkLocation 2 0;
        mkLocation 2 (-1); mkLocation 1 1 ]) by (vm_compute; reflexivity).
  rewrite Hfour.
  assert (Hl : map (shiftLocation c)
                 [ mkLocation 0 (-1); mkLocation 1 (-1); mkLocation 2 0;
                   mkLocation 2 (-1); mkLocation 1 1 ]
               = [ mkLocation (x c + 0) (y c + -1);
                   mkLocation (x c + 1) (y c + -1);
                   mkLocation (x c + 2) (y c + 0);
                   mkLocation (x c + 2) (y c + -1);
                   mkLocation (x c + 1) (y c + 1) ]).
  { unfold shiftLocation; simpl.
    repeat (apply (f_equal2 cons); [apply (f_equal2 mkLocation); lia|]).
    reflexivity. }
  assert (Hr : map location (glider (Some {| x := x c + 1; y := y c - 1 |}))
               = [ mkLocation (x c + 0) (y c + -1);
                   mkLocation (x c + 1) (y c + -1);
                   mkLocation (x c + 2) (y c + -1);
                   mkLocation (x c + 2) (y c + 0);
                   mkLocation (x c + 1) (y c + 1) ]).
  { destruct Hc as [Hx Hy]. unfold glider; simpl.
    rewrite !jsAdd_exact, !jsSub_exact by lia.
    repeat (apply (f_equal2 cons); [apply (f_equal2 mkLocation); lia|]).
    reflexivity. }
  rewrite Hl, Hr. simpl. tauto.
Qed.

Lemma glider_moves_after_4_ticks_witness :
  In (mkLocation 12 5)
     (livingLocations
        (tick (tick (tick (tick
           (mkWorld 0 (glider (Some (mkLocation 10 6)))))))))
  <-> In (mkLocation 12 5)
         (map location
            (glider (Some {| x := x (mkLocation 10 6) + 1;
                             y := y (mkLocation 10 6) - 1 |}))).
Proof.
  apply (glider_moves_after_4_ticks (mkLocation 10 6) 0 (mkLocation 12 5)).
  unfold withinBound, twoTo53. simpl. lia.
Defined.

(** ** De-duplicating what has no duplicate *)

Lemma cellIndex_NoDup (cs : list Cell) :
  NoDup (map location cs) ->
  cellIndex cs = map (fun c => (locationKey (location c), c)) cs.
Proof.
  induction cs as [|c cs IH] using rev_ind; [done|].
  rewrite map_app. simpl. intros Hnd.
  apply NoDup_remove in Hnd as [Hnd Hnin]. rewrite app_nil_r in Hnd, Hnin.
  rewrite cellIndex_snoc, IH by done. rewrite map_app. simpl.
  apply mapSet_fresh. rewrite map_map. simpl.
  intros (c' & Hkey%locationKey_inj & Hin)%in_map_iff.
  apply Hnin. rewrite <- Hkey. by apply in_map.
Qed.

Lemma uniqueCells_NoDup_id (cs : list Cell) :
  NoDup (map location cs) -> uniqueCells cs = cs.
Proof.
  intros Hnd. rewrite uniqueCells_values, cellIndex_NoDup by done.
  rewrite map_map. simpl. apply map_id.
Qed.

(** X10.  [uniqueCells] returns a list without duplicate locations
    unchanged, in the same order; so applying it twice is the same as
    applying it once. *)
Theorem uniqueCells_idempotent (cs : list Cell) :
  uniqueCells (uniqueCells cs) = uniqueCells cs /\
  (NoDup (map location cs) -> uniqueCells cs = cs).
Proof.
  split; [|apply uniqueCells_NoDup_id].
  apply uniqueCells_NoDup_id, uniqueCells_NoDup.
Qed.

Lemma uniqueCells_idempotent_witness :
  uniqueCells (glider None) = glider None.
Proof.
  apply (proj2 (uniqueCells_idempotent (glider None))).
  simpl. repeat constructor; simpl; intuition discriminate.
Defined.

(** ** Mirroring twice *)

(** X11.  Mirroring a pattern twice across the same axis gives back the
    cells of the pattern, whatever centers are passed. *)
Theorem mirror_involutive (pattern : Pattern) (axis : Axis)
    (c : option Location) :
  mirror (mirror pattern axis) axis c = pattern None.
Proof.
  unfold mirror. rewrite map_map. rewrite <- (map_id (pattern None)) at 2.
  apply map_ext. intros [[cx cy] s]. destruct axis; simpl;
    (apply (f_equal2 mkCell); [apply (f_equal2 mkLocation); lia | done]).
Qed.

(** X12.  Mirroring across both axes, in either order, sends each cell of
    the pattern from (x, y) to (-x, -y). *)
Theorem mirrorX_mirrorY (pattern : Pattern) (c : option Location) :
  mirrorX (mirrorY pattern) c
  = map (fun cell =>
           {| location := {| x := - x (location cell);
                             y := - y (location cell) |};
              state := state cell |})
        (pattern None) /\
  mirrorY (mirrorX pattern) c = mirrorX (mirrorY pattern) c.
Proof.
  unfold mirrorX, mirrorY, mirror. rewrite !map_map. split.
  - apply map_ext. intros [[cx cy] s]; simpl.
    apply (f_equal2 mkCell); [apply (f_equal2 mkLocation); lia | done].
  - apply map_ext. intros [[cx cy] s]; simpl.
    apply (f_equal2 mkCell); [apply (f_equal2 mkLocation); lia | done].
Qed.

(** ** Rotations *)

Lemma rotateLocation_supported (l : Location) (r : Rotation) :
  supportedRotation (value r) -> exists l', rotateLocation l r = Ok l'.
Proof.
  unfold supportedRotation, rotateLocation.
  intros [-> | [-> | [-> | [-> | ->]]]]; simpl; eauto.
Qed.

Lemma rotateLocation_unsupported (l : Location) (r : Rotation) :
  ~ supportedRotation (value r) -> rotateLocation l r = Throw EmptyString.
Proof.
  unfold supportedRotation. intros Hv. apply rotateLocation_throws_iff. lia.
Qed.

(** X13.  [rotate] returns as many cells as the pattern has, with their
    states in the same order, whenever the rotation value has a case in
    the switch or the pattern is empty; with any other value and a
    pattern that has a cell, the call throws. *)
Theorem rotate_throws_iff (pattern : Pattern) (v : Z)
    (dir : option RotationDirection) (c : option Location) :
  (supportedRotation v \/ pattern None = [] ->
   exists cs, rotate pattern v dir c = Ok cs /\
              map state cs = map state (pattern None)) /\
  (~ supportedRotation v -> pattern None <> [] ->
   rotate pattern v dir c = Throw EmptyString).
Proof.
  unfold rotate. split.
  - intros Hok. induction (pattern None) as [|p ps IH]; simpl.
    + by exists [].
    + destruct Hok as [Hv|Hnil]; [|discriminate].
      destruct (rotateLocation_supported (location p)
                  {| direction := match dir with
                                  | Some d => d
                                  | None => counterclockwise
                                  end;
                     value := v; center := orOrigin c |} Hv) as [l' ->].
      simpl. destruct (IH (or_introl Hv)) as (cs & -> & Hst). simpl.
      eexists. split; [reflexivity|]. simpl. by rewrite Hst.
  - intros Hv Hne. destruct (pattern None) as [|p ps]; [done|]. simpl.
    by rewrite rotateLocation_unsupported.
Qed.

Lemma rotate_throws_iff_witness :
  (exists cs, rotate glider 270 None None = Ok cs /\
              map state cs = map state (glider None)) /\
  rotate glider 45 None None = Throw EmptyString.
Proof.
  split.
  - apply (proj1 (rotate_throws_iff glider 270 None None)).
    left. unfold supportedRotation. tauto.
  - apply (proj2 (rotate_throws_iff glider 45 None None)).
    + unfold supportedRotation. lia.
    + discriminate.
Defined.

(** X14.  For a quarter turn, turning clockwise by a value is turning
    counterclockwise by the opposite value, about any center. *)
Theorem rotateLocation_direction (v : Z) (l c : Location) :
  quarterTurn v ->
  rotateLocation l (mkRotation clockwise v c)
  = rotateLocation l (mkRotation counterclockwise (- v) c).
Proof.
  intros [-> | [-> | [-> | ->]]]; unfold rotateLocation; simpl;
    f_equal; apply (f_equal2 mkLocation); lia.
Qed.

Lemma rotateLocation_direction_witness :
  rotateLocation (mkLocation 3 5) (mkRotation clockwise 90 (mkLocation 1 2))
  = rotateLocation (mkLocation 3 5)
      (mkRotation counterclockwise (- 90) (mkLocation 1 2)).
Proof.
  apply (rotateLocation_direction 90 (mkLocation 3 5) (mkLocation 1 2)).
  unfold quarterTurn. tauto.
Defined.

(** X15.  About the origin, a quarter turn followed by the opposite
    quarter turn in the same direction brings every location back. *)
Theorem rotateLocation_inverse (v : Z) (d : RotationDirection)
    (l : Location) :
  quarterTurn v ->
  (try! l1 <- rotateLocation l (mkRotation d v origin);
   rotateLocation l1 (mkRotation d (- v) origin)) = Ok l.
Proof.
  destruct l as [lx ly].
  intros [-> | [-> | [-> | ->]]]; destruct d;
    unfold rotateLocation, origin; simpl; rewrite !jsSub_0_r; simpl;
    rewrite ?jsSub_0_r; f_equal; apply (f_equal2 mkLocation); lia.
Qed.

Lemma rotateLocation_inverse_witness :
  (try! l1 <- rotateLocation (mkLocation 3 5)
                (mkRotation clockwise 270 origin);
   rotateLocation l1 (mkRotation clockwise (- 270) origin))
  = Ok (mkLocation 3 5).
Proof.
  apply (rotateLocation_inverse 270 clockwise (mkLocation 3 5)).
  unfold quarterTurn. tauto.
Defined.

(** X16.  Two successive turns of 90 about the origin send (x, y) to
    (-x, -y), while the value 180 sends it to (-y, -x), whatever the
    direction and the center: the two agree only on the locations with
    x = y. *)
Theorem rotateLocation_180_not_two_quarters (d : RotationDirection)
    (c l : Location) :
  (try! l1 <- rotateLocation l (mkRotation d 90 origin);
   rotateLocation l1 (mkRotation d 90 origin))
  = Ok {| x := - x l; y := - y l |} /\
  rotateLocation l (mkRotation d 180 c) = Ok {| x := - y l; y := - x l |} /\
  ((try! l1 <- rotateLocation l (mkRotation d 90 origin);
    rotateLocation l1 (mkRotation d 90 origin))
   = rotateLocation l (mkRotation d 180 c) <-> x l = y l).
Proof.
  assert (Htwo : (try! l1 <- rotateLocation l (mkRotation d 90 origin);
                  rotateLocation l1 (mkRotation d 90 origin))
                 = Ok {| x := - x l; y := - y l |}).
  { destruct d; unfold rotateLocation, origin; simpl;
      rewrite !jsSub_0_r; simpl; rewrite ?jsSub_0_r;
      f_equal; apply (f_equal2 mkLocation); lia. }
  split; [exact Htwo|]. split; [reflexivity|]. rewrite Htwo.
  unfold rotateLocation; simpl. split.
  - intros [= H1 H2]. lia.
  - intros ->. reflexivity.
Qed.

(** ** Translations *)

#[local] Arguments jsAdd : simpl never.
#[local] Arguments jsSub : simpl never.

(** Replaces by exact ones the sums and differences that the bounds in
    the context show to be exact, the innermost first. *)
Ltac exact_sums :=
  repeat match goal with
    | |- context [?a +# ?b] =>
        rewrite (jsAdd_exact a b) by (unfold twoTo53; lia)
    | |- context [?a -# ?b] =>
        rewrite (jsSub_exact a b) by (unfold twoTo53; lia)
    end.

(** X17.  Translating a translated pattern adds the two offsets, the
    center being applied once, by the outer translation; this holds when
    the center, the two offsets and the cells of the pattern have
    coordinates of magnitude at most 2^51, so that every sum is exact. *)
Theorem translate_translate (pattern : Pattern) (r1 r2 : Location)
    (c : option Location) :
  withinBound twoTo51 (orOrigin c) ->
  withinBound twoTo51 r1 -> withinBound twoTo51 r2 ->
  (forall cell, In cell (pattern None) ->
     withinBound twoTo51 (location cell)) ->
  translate (translate pattern r1) r2 c
  = translate pattern {| x := x r1 + x r2; y := y r1 + y r2 |} c.
Proof.
  unfold withinBound, twoTo51. intros [Hcx Hcy] [H1x H1y] [H2x H2y] Hp.
  unfold translate. simpl. rewrite map_map. apply map_ext_in.
  intros cell [Hx Hy]%Hp. simpl.
  apply (f_equal2 mkCell); [|done].
  apply (f_equal2 mkLocation); exact_sums; lia.
Qed.

Lemma translate_translate_witness :
  translate (translate glider (mkLocation 2 3)) (mkLocation (-5) 1)
            (Some (mkLocation 4 4))
  = translate glider
      {| x := x (mkLocation 2 3) + x (mkLocation (-5) 1);
         y := y (mkLocation 2 3) + y (mkLocation (-5) 1) |}
      (Some (mkLocation 4 4)).
Proof.
  apply (translate_translate glider (mkLocation 2 3) (mkLocation (-5) 1)
           (Some (mkLocation 4 4)));
    try (unfold withinBound, twoTo51; simpl; lia).
  intros cell Hc. vm_compute in Hc.
  destruct Hc as [<-|[<-|[<-|[<-|[<-|[]]]]]];
    unfold withinBound, twoTo51; simpl; lia.
Defined.

(** X18.  [trans] applied to the glider or to the blinker moves every cell
    by the center plus the offset, in both coordinates, when the center
    and the offset have coordinates of magnitude at most 2^51. *)
Theorem trans_moves_glider_and_blinker (relative : Location)
    (c : option Location) :
  withinBound twoTo51 (orOrigin c) -> withinBound twoTo51 relative ->
  trans glider relative c = translateByOffset glider relative c /\
  trans blinker2 relative c = translateByOffset blinker2 relative c.
Proof.
  unfold withinBound, twoTo51. intros [Hcx Hcy] [Hrx Hry].
  unfold trans, translateByOffset, glider, blinker2; simpl. split;
    repeat (apply (f_equal2 cons);
            [apply (f_equal2 mkCell);
             [apply (f_equal2 mkLocation); exact_sums; lia | reflexivity]|]);
    reflexivity.
Qed.

Lemma trans_moves_glider_and_blinker_witness :
  trans glider (mkLocation 6 0) None
  = translateByOffset glider (mkLocation 6 0) None /\
  trans blinker2 (mkLocation 6 0) None
  = translateByOffset blinker2 (mkLocation 6 0) None.
Proof.
  apply (trans_moves_glider_and_blinker (mkLocation 6 0) None);
    unfold withinBound, twoTo51; simpl; lia.
Defined.

(** ** The board *)

Lemma forRange_In (lo hi z : Z) : In z (forRange lo hi) <-> lo <= z <= hi.
Proof.
  unfold forRange. rewrite in_map_iff. split.
  - intros (k & <- & Hk%in_seq). lia.
  - intros Hz. exists (Z.to_nat (z - lo)). split; [lia|].
    apply in_seq. lia.
Qed.

Lemma getBoardCellLocations_In (l : Location) :
  In l getBoardCellLocations <->
  - numColumnsSigned <= x l <= numColumnsSigned /\
  - numRowsSigned <= y l <= numRowsSigned.
Proof.
  unfold getBoardCellLocations. rewrite in_flat_map. split.
  - intros (cx & Hcx%forRange_In & (cy & <- & Hcy%forRange_In)%in_map_iff).
    simpl. done.
  - intros [Hx Hy]. exists (x l). split; [by apply forRange_In|].
    apply in_map_iff. exists (y l). split; [by destruct l|].
    by apply forRange_In.
Qed.

(** X19.  The board consists of the 41 x 41 = 1681 locations whose two
    coordinates lie between -20 and 20, each listed once. *)
Theorem getBoardCellLocations_spec :
  (forall l, In l getBoardCellLocations
             <-> -20 <= x l <= 20 /\ -20 <= y l <= 20) /\
  NoDup getBoardCellLocations /\
  length getBoardCellLocations = 1681%nat.
Proof.
  split; [intros l; apply getBoardCellLocations_In|]. split; [|reflexivity].
  assert (Hfix : nodup Location_eq_dec getBoardCellLocations
                 = getBoardCellLocations) by (vm_compute; reflexivity).
  rewrite <- Hfix. apply NoDup_nodup.
Qed.

(** X20.  Every location of the board is drawn in a row and a column of
    the grid numbered from 1 to 41, the highest row of the plane first,
    and every such slot of the grid is taken by exactly one location of
    the board. *)
Theorem board_fills_grid :
  (forall l, In l getBoardCellLocations ->
             1 <= gridRow (y l) <= numRows /\
             1 <= gridColumn (x l) <= numColumns) /\
  (forall r c, 1 <= r <= numRows -> 1 <= c <= numColumns ->
     exists l, In l getBoardCellLocations /\
               gridRow (y l) = r /\ gridColumn (x l) = c /\
               forall l', In l' getBoardCellLocations ->
                          gridRow (y l') = r -> gridColumn (x l') = c ->
                          l' = l) /\
  gridRow numRowsSigned = 1.
Proof.
  unfold gridRow, gridColumn.
  change numRows with 41; change numColumns with 41;
    change numRowsSigned with 20; change numColumnsSigned with 20.
  split; [|split; [|reflexivity]].
  - intros l Hl%getBoardCellLocations_In.
    change numRowsSigned with 20 in Hl; change numColumnsSigned with 20 in Hl.
    lia.
  - intros r c Hr Hc. exists {| x := c - 21; y := 21 - r |}. simpl.
    split; [|split; [lia|split; [lia|]]].
    + apply getBoardCellLocations_In.
      change numRowsSigned with 20; change numColumnsSigned with 20.
      simpl. lia.
    + intros [lx ly] _; simpl. intros H1 H2. f_equal; lia.
Qed.

Lemma board_fills_grid_witness :
  exists l, In l getBoardCellLocations /\
            gridRow (y l) = 1 /\ gridColumn (x l) = 41 /\
            forall l', In l' getBoardCellLocations ->
                       gridRow (y l') = 1 -> gridColumn (x l') = 41 ->
                       l' = l.
Proof.
  apply (proj1 (proj2 board_fills_grid) 1 41);
    change numRows with 41; change numColumns with 41; lia.
Defined.

(** X21.  The board reports a location alive exactly when the location
    lies on the board and the query finds it alive in the world; a living
    cell outside the board is not shown. *)
Theorem boardStates_alive (w : World) (cx cy : Z) :
  In (cx, cy, true) (boardStates w) <->
  (-20 <= cx <= 20 /\ -20 <= cy <= 20) /\
  isAlive (getCell w {| x := cx; y := cy |}) = true.
Proof.
  unfold boardStates. rewrite in_map_iff. split.
  - intros ([lx ly] & [= <- <- Halive] & Hin%getBoardCellLocations_In).
    auto.
  - intros [Hb Halive]. exists {| x := cx; y := cy |}. split.
    + simpl. by rewrite Halive.
    + by apply getBoardCellLocations_In.
Qed.

(** ** The game as it is driven *)

Lemma gameRun_snoc (initial : list Cell) (events : list GameEvent)
    (e : GameEvent) :
  gameRun initial (events ++ [e])
  = gameStep initial (gameRun initial events) e.
Proof. unfold gameRun. by rewrite fold_left_app. Qed.

(** After any events, the world is the initial world ticked some number
    of times, no more than there were events. *)
Lemma gameRun_ticks (initial : list Cell) (events : list GameEvent) :
  exists n, (n <= length events)%nat /\
            world (gameRun initial events)
            = Nat.iter n tick {| time := 0; cells := initial |}.
Proof.
  induction events as [|e events (n & Hn & IH)] using rev_ind.
  - exists 0%nat. split; [simpl; lia | reflexivity].
  - rewrite gameRun_snoc, length_app. simpl length.
    destruct e; simpl; try (exists n; split; [lia | exact IH]).
    + exists 0%nat. split; [lia | reflexivity].
    + exists (S n). split; [lia|]. simpl. by rewrite IH.
    + destruct (isRunning (gameRun initial events)); simpl.
      * exists (S n). split; [lia|]. simpl. by rewrite IH.
      * exists n. split; [lia | exact IH].
Qed.

Lemma iter_tick_time (n : nat) (w : World) :
  0 <= time w -> time w + Z.of_nat n <= twoTo53 ->
  time (Nat.iter n tick w) = time w + Z.of_nat n.
Proof.
  intros H0. induction n as [|n IH]; intros Hn; [simpl; lia|].
  change (Nat.iter (S n) tick w) with (tick (Nat.iter n tick w)).
  unfold tick at 1. simpl time. rewrite IH by lia.
  rewrite jsAdd_exact by lia. lia.
Qed.

Lemma iter_tick_NoDup (n : nat) (w : World) :
  NoDup (map location (cells w)) ->
  NoDup (map location (cells (Nat.iter n tick w))).
Proof.
  intros Hnd. induction n as [|n IH]; [done|].
  change (Nat.iter (S n) tick w) with (tick (Nat.iter n tick w)).
  by apply tick_locations_NoDup.
Qed.

(** X22.  Whatever sequence of at most 2^53 start, stop, toggle, reset,
    next and timer events the hook goes through, the generation it shows
    is the number of ticks applied to the initial cells since the last
    reset: the world is the initial world ticked that many times, and
    the generation is never negative nor larger than the number of
    events. *)
Theorem gameRun_generation (initial : list Cell)
    (events : list GameEvent) :
  Z.of_nat (length events) <= twoTo53 ->
  exists n, (n <= length events)%nat /\
            world (gameRun initial events)
            = Nat.iter n tick {| time := 0; cells := initial |} /\
            time (world (gameRun initial events)) = Z.of_nat n.
Proof.
  intros Hlen. destruct (gameRun_ticks initial events) as (n & Hn & Hw).
  exists n. split; [done|]. split; [done|].
  rewrite Hw, iter_tick_time; simpl; lia.
Qed.

Lemma gameRun_generation_witness :
  exists n, (n <= length [Start; Timeout; Stop; Timeout; Next])%nat /\
            world (gameRun (glider None)
                     [Start; Timeout; Stop; Timeout; Next])
            = Nat.iter n tick {| time := 0; cells := glider None |} /\
            time (world (gameRun (glider None)
                           [Start; Timeout; Stop; Timeout; Next]))
            = Z.of_nat n.
Proof.
  apply (gameRun_generation (glider None)
           [Start; Timeout; Stop; Timeout; Next]).
  unfold twoTo53. simpl. lia.
Defined.

(** X23.  When the initial cells have at most one cell per location, so
    has every world the hook ever shows. *)
Theorem gameRun_unique_locations (initial : list Cell)
    (events : list GameEvent) :
  NoDup (map location initial) ->
  NoDup (map location (cells (world (gameRun initial events)))).
Proof.
  intros Hnd. destruct (gameRun_ticks initial events) as (n & _ & ->).
  by apply iter_tick_NoDup.
Qed.

Lemma gameRun_unique_locations_witness :
  NoDup (map location
           (cells (world (gameRun (glider None)
                            [Start; Timeout; Stop; Timeout; Next])))).
Proof.
  apply (gameRun_unique_locations (glider None)
           [Start; Timeout; Stop; Timeout; Next]).
  simpl. repeat constructor; simpl; intuition discriminate.
Defined.

(** ** The shape of a rotated pattern *)

(** X24.  A rotation keeps the distances: for every value with a case in
    the switch, every direction and every center, two locations and their
    images are the same squared distance apart, when the locations and
    the center have coordinates of magnitude at most 2^52, so that the
    differences to the center are exact. *)
Theorem rotateLocation_isometry (r : Rotation) (l1 l2 : Location) :
  supportedRotation (value r) ->
  withinBound twoTo52 (center r) ->
  withinBound twoTo52 l1 -> withinBound twoTo52 l2 ->
  exists l1' l2',
    rotateLocation l1 r = Ok l1' /\ rotateLocation l2 r = Ok l2' /\
    (x l1' - x l2') * (x l1' - x l2') + (y l1' - y l2') * (y l1' - y l2')
    = (x l1 - x l2) * (x l1 - x l2) + (y l1 - y l2) * (y l1 - y l2).
Proof.
  destruct r as [d v c]; simpl. unfold withinBound, twoTo52.
  intros Hv [Hcx Hcy] [H1x H1y] [H2x H2y].
  destruct Hv as [-> | [-> | [-> | [-> | ->]]]]; destruct d;
    unfold rotateLocation; simpl; do 2 eexists;
    (split; [reflexivity|]); (split; [reflexivity|]); simpl;
    exact_sums; ring.
Qed.

Lemma rotateLocation_isometry_witness :
  exists l1' l2',
    rotateLocation (mkLocation 1 0)
      (mkRotation counterclockwise 90 (mkLocation 4 4)) = Ok l1' /\
    rotateLocation (mkLocation 0 2)
      (mkRotation counterclockwise 90 (mkLocation 4 4)) = Ok l2' /\
    (x l1' - x l2') * (x l1' - x l2') + (y l1' - y l2') * (y l1' - y l2')
    = (1 - 0) * (1 - 0) + (0 - 2) * (0 - 2).
Proof.
  apply (rotateLocation_isometry
           (mkRotation counterclockwise 90 (mkLocation 4 4))
           (mkLocation 1 0) (mkLocation 0 2));
    try (unfold withinBound, twoTo52; simpl; lia).
  unfold supportedRotation. simpl. tauto.
Defined.
